(** * build.go: the incremental-rebuild engine

    A shallow embedding of [src/build.go]: the per-step status machine of
    [Build.Run] (initial compile pass, poll tick, restart signal) and the
    source-tree hasher ([sourceTreeHash], [directoryHash]). *)

From Stdlib Require Import String Ascii List Arith Bool Lia.
From stdpp Require Import base option list strings.
Import ListNotations.

Local Open Scope string_scope.
Local Open Scope list_scope.

(** ** Data model *)

(** Go's [error] values are only logged; they are kept as their message. *)
Definition error := string.

Record CompileConfig := {
  Development : bool;
  Quick : bool;
  Version : string;
  GOOS : string;
  GOARCH : string
}.

(** [FileFilter] is a slice that the hasher compares with [nil]:
    [None] is the nil slice, [Some []] an empty one. *)
Record WatchList := {
  Paths : list string;
  FileFilter : option (list string)
}.

Record sourceTreeStatus := {
  TreeHash : string;
  Dirty : bool;
  Broken : bool
}.

Definition set_TreeHash (th : string) (s : sourceTreeStatus) : sourceTreeStatus :=
  {| TreeHash := th; Dirty := Dirty s; Broken := Broken s |}.
Definition set_Dirty (v : bool) (s : sourceTreeStatus) : sourceTreeStatus :=
  {| TreeHash := TreeHash s; Dirty := v; Broken := Broken s |}.
Definition set_Broken (v : bool) (s : sourceTreeStatus) : sourceTreeStatus :=
  {| TreeHash := TreeHash s; Dirty := Dirty s; Broken := v |}.

(** What [Run] does that can be seen from outside, in program order. *)
Inductive Event :=
| CallCompile (i : nat) (r : option error)  (* step i's callback ran and returned r *)
| LogRecompiling (i : nat)                  (* "recompiling step %d" *)
| LogCompilationError (e : error)           (* "compilation error: %v" *)
| SignalRestart.                            (* restart <- 0 was received *)

(** A compile callback is opaque code with effects: it acts on a world [W]
    and returns [nil] ([None]) or an error. *)
Definition CompilerJob (W : Type) := CompileConfig -> W -> option error * W.

Record BuildStep (W : Type) := {
  StepWatchList : WatchList;
  Compile : CompilerJob W
}.
Arguments StepWatchList {W} _.
Arguments Compile {W} _.

Record Build (W : Type) := {
  ExecutableName : string;
  Steps : list (BuildStep W)
}.
Arguments ExecutableName {W} _.
Arguments Steps {W} _.

(** ** The status machine of [Build.Run] *)

(** The status slice is indexed by the position of the step.  Go panics on
    an index out of range; a read of [status[i]] that would panic makes
    the model return [None].  Writes are modelled with [alter], and happen
    only at indices already read or bounded by [len(status)]. *)

Section StatusMachine.
Context {W : Type}.

(** [make([]sourceTreeStatus, n)] *)
Definition zero_status : sourceTreeStatus :=
  {| TreeHash := ""; Dirty := false; Broken := false |}.
Definition make_status (n : nat) : list sourceTreeStatus := replicate n zero_status.

(** Body of the loop at lines 124-134, for one [j]. *)
Definition cascade_one (quick : bool) (s : sourceTreeStatus) : sourceTreeStatus :=
  if Broken s then set_Broken false (set_Dirty true s)
  else if negb quick then set_Dirty true s
  else s.

(** [for j := from; j < len(status); j++ { ... }] *)
Definition cascade (quick : bool) (from : nat) (status : list sourceTreeStatus)
  : list sourceTreeStatus :=
  foldl (fun st j => alter (cascade_one quick) j st) status
        (seq from (length status - from)).

(** What a detected change does to the slice (lines 121-135). *)
Definition mark_changed (quick : bool) (i : nat) (th : string)
    (status : list sourceTreeStatus) : list sourceTreeStatus :=
  let status := alter (fun s => set_Broken false (set_Dirty true s)) i status in
  let status := cascade quick (S i) status in
  alter (set_TreeHash th) i status.

(** The hash phase of a tick (lines 118-137), from step [i] on.  [hash]
    is [sourceTreeHash] as evaluated during this tick. *)
Fixpoint detect_changes (hash : WatchList -> string) (quick : bool) (i : nat)
    (steps : list (BuildStep W)) (status : list sourceTreeStatus)
  : option (list sourceTreeStatus) :=
  match steps with
  | [] => Some status
  | st :: rest =>
      match status !! i with
      | None => None
      | Some s =>
          let th := hash (StepWatchList st) in
          let status :=
            if negb (String.eqb (TreeHash s) th)
            then mark_changed quick i th status
            else status in
          detect_changes hash quick (S i) rest status
      end
  end.

Record TickResult := {
  tick_status : list sourceTreeStatus;
  tick_world : W;
  tick_events : list Event;
  tick_restart : bool            (* shouldRestart at line 157 *)
}.

Definition log_more (evs : list Event) (r : TickResult) : TickResult :=
  {| tick_status := tick_status r; tick_world := tick_world r;
     tick_events := evs ++ tick_events r; tick_restart := tick_restart r |}.

(** The recompilation phase of a tick (lines 139-156), from step [i] on;
    [n] is [len(b.Steps)]. *)
Fixpoint recompile (conf : CompileConfig) (n i : nat) (steps : list (BuildStep W))
    (status : list sourceTreeStatus) (w : W) (shouldRestart : bool)
  : option TickResult :=
  match steps with
  | [] => Some {| tick_status := status; tick_world := w;
                  tick_events := []; tick_restart := shouldRestart |}
  | bs :: rest =>
      match status !! i with
      | None => None
      | Some s =>
          if negb (Dirty s) then recompile conf n (S i) rest status w shouldRestart
          else
            let shouldRestart := if Nat.eqb i (n - 1) then true else shouldRestart in
            let status := alter (set_Dirty false) i status in
            match Compile bs conf w with
            | (Some e, w) =>
                Some {| tick_status := status; tick_world := w;
                        tick_events := [LogRecompiling i; CallCompile i (Some e);
                                        LogCompilationError e];
                        tick_restart := shouldRestart |}
            | (None, w) =>
                let status := alter (set_Broken true) i status in
                log_more [LogRecompiling i; CallCompile i None]
                  <$> recompile conf n (S i) rest status w shouldRestart
            end
      end
  end.

(** One iteration of the watch loop after the sleep (lines 118-156). *)
Definition tick (hash : WatchList -> string) (conf : CompileConfig)
    (steps : list (BuildStep W)) (status : list sourceTreeStatus) (w : W)
  : option TickResult :=
  match detect_changes hash (Quick conf) 0 steps status with
  | None => None
  | Some status => recompile conf (length steps) 0 steps status w false
  end.

(** [for j := i; j < len(b.Steps); j++ { status[j].Broken = true }] *)
Definition mark_broken_from (i n : nat) (status : list sourceTreeStatus)
  : list sourceTreeStatus :=
  foldl (fun st j => alter (set_Broken true) j st) status (seq i (n - i)).

Inductive PassResult :=
| PassFatal (e : error) (w : W) (evs : list Event)      (* log.Fatalf *)
| PassDone (status : list sourceTreeStatus) (w : W) (evs : list Event).

Definition pass_events (r : PassResult) : list Event :=
  match r with PassFatal _ _ evs => evs | PassDone _ _ evs => evs end.

Definition pass_log_more (evs : list Event) (r : PassResult) : PassResult :=
  match r with
  | PassFatal e w evs' => PassFatal e w (evs ++ evs')
  | PassDone st w evs' => PassDone st w (evs ++ evs')
  end.

(** The first compile pass (lines 74-87), from step [i] on. *)
Fixpoint initial_pass (watch : bool) (conf : CompileConfig) (n i : nat)
    (steps : list (BuildStep W)) (status : list sourceTreeStatus) (w : W)
  : PassResult :=
  match steps with
  | [] => PassDone status w []
  | bs :: rest =>
      match Compile bs conf w with
      | (Some e, w) =>
          if watch
          then PassDone (mark_broken_from i n status) w
                        [CallCompile i (Some e); LogCompilationError e]
          else PassFatal e w [CallCompile i (Some e); LogCompilationError e]
      | (None, w) =>
          pass_log_more [CallCompile i None]
            (initial_pass watch conf n (S i) rest status w)
      end
  end.

(** Lines 111-113: record the current hash of every step. *)
Fixpoint init_hashes (hash : WatchList -> string) (i : nat)
    (steps : list (BuildStep W)) (status : list sourceTreeStatus)
  : list sourceTreeStatus :=
  match steps with
  | [] => status
  | st :: rest =>
      init_hashes hash (S i) rest (alter (set_TreeHash (hash (StepWatchList st))) i status)
  end.

Inductive Outcome :=
| Fatal (e : error)        (* log.Fatalf / log.Fatal: the process exits *)
| Panicked                 (* index out of range *)
| BlockedOnRestart         (* restart <- 0 with no receiver: -run not given *)
| Returned.

Record RunResult := {
  outcome : Outcome;
  final_status : list sourceTreeStatus;
  final_world : W;
  events : list Event
}.

Definition run_log_more (evs : list Event) (r : RunResult) : RunResult :=
  {| outcome := outcome r; final_status := final_status r;
     final_world := final_world r; events := evs ++ events r |}.

(** The watch loop (lines 115-160).  The loop runs until the context is
    cancelled; [ticks] holds, for each iteration that starts before the
    cancellation, the tree hasher as it evaluates during that iteration.
    The restart channel is unbuffered and is received from only by the
    goroutine that [-run] starts. *)
Fixpoint watch_loop (run : bool) (conf : CompileConfig) (steps : list (BuildStep W))
    (ticks : list (WatchList -> string))
    (status : list sourceTreeStatus) (w : W) : RunResult :=
  match ticks with
  | [] => {| outcome := Returned; final_status := status; final_world := w; events := [] |}
  | hash :: later =>
      match tick hash conf steps status w with
      | None => {| outcome := Panicked; final_status := status; final_world := w;
                   events := [] |}
      | Some r =>
          if tick_restart r then
            if run
            then run_log_more (tick_events r ++ [SignalRestart])
                   (watch_loop run conf steps later (tick_status r) (tick_world r))
            else {| outcome := BlockedOnRestart; final_status := tick_status r;
                    final_world := tick_world r; events := tick_events r |}
          else run_log_more (tick_events r)
                 (watch_loop run conf steps later (tick_status r) (tick_world r))
      end
  end.
End StatusMachine.

(** ** The source-tree hasher *)

(** Go strings are byte strings, and so is [string] here: paths, file
    contents, data written to a hash and digests are all [string]s. *)

(** What the hasher can see at a path and below it.  A directory holds the
    names [Readdirnames] returns, in the order it returns them, each with
    what is seen at the joined path. *)
#[warnings="-register-all"]
Inductive FileNode :=
| StatError                                     (* os.Stat fails *)
| RegularFile (content : option string)         (* None: os.Open fails *)
| Directory (names : option (list (string * FileNode))).
                                                (* None: Open or Readdirnames fails *)

(** The file system as the watched roots see it. *)
Definition FileSystem := string -> FileNode.

(** *** Library functions *)

Definition is_sep (c : ascii) : bool := Ascii.eqb c "/".

Fixpoint strip_trailing_seps (p : string) : string :=
  match p with
  | EmptyString => EmptyString
  | String c p' =>
      match strip_trailing_seps p' with
      | EmptyString => if is_sep c then EmptyString else String c EmptyString
      | r => String c r
      end
  end.

Fixpoint last_element (acc p : string) : string :=
  match p with
  | EmptyString => acc
  | String c p' =>
      if is_sep c then last_element EmptyString p'
      else last_element (acc +:+ String c EmptyString) p'
  end.

(** [filepath.Base] with [/] as the separator: strip trailing separators,
    keep what follows the last separator; ["."] for the empty path and
    ["/"] for a path of separators only. *)
Definition filepath_Base (path : string) : string :=
  match path with
  | EmptyString => "."
  | _ =>
      match last_element EmptyString (strip_trailing_seps path) with
      | EmptyString => "/"
      | b => b
      end
  end.

(** The pattern bytes that [filepath.Match] reads as something other than
    themselves, [*] apart: [?], the opening of a character class and the
    escape, byte 92. *)
Definition special_byte (c : ascii) : bool :=
  Ascii.eqb c "?" || Ascii.eqb c "[" || Ascii.eqb c (ascii_of_nat 92).

Fixpoint literal_and_star (pattern : string) : bool :=
  match pattern with
  | EmptyString => true
  | String p pattern' => negb (special_byte p) && literal_and_star pattern'
  end.

(** A pattern of literal bytes and [*] against a name: a literal byte
    matches itself, and [*] matches any run of bytes without a separator. *)
Fixpoint match_literal_star (pattern : string) : string -> bool :=
  match pattern with
  | EmptyString => fun name => match name with EmptyString => true | _ => false end
  | String p pattern' =>
      if Ascii.eqb p "*" then
        fix star (name : string) : bool :=
          match_literal_star pattern' name ||
          match name with
          | EmptyString => false
          | String c name' => negb (is_sep c) && star name'
          end
      else
        fun name =>
          match name with
          | EmptyString => false
          | String c name' => Ascii.eqb p c && match_literal_star pattern' name'
          end
  end.

(** [filepath.Match] with [/] as the separator, on the patterns made of
    literal bytes and [*] only; such a pattern is never malformed, and the
    result is the [matched] of the library.  A pattern with [?], a
    character class or an escape gets no answer here: there the library
    decodes runes of the name. *)
Definition glob_match (pattern name : string) : option bool :=
  if literal_and_star pattern then Some (match_literal_star pattern name) else None.

(** The last byte of a string, if it has one. *)
Fixpoint last_byte (s : string) : option ascii :=
  match s with
  | EmptyString => None
  | String c s' =>
      match last_byte s' with
      | None => Some c
      | Some c' => Some c'
      end
  end.

Definition hex_digit (n : N) : ascii :=
  match String.get (N.to_nat n) "0123456789abcdef" with
  | Some c => c
  | None => "0"%char
  end.

(** [hex.EncodeToString] *)
Fixpoint hex_EncodeToString (src : string) : string :=
  match src with
  | EmptyString => EmptyString
  | String c src' =>
      let n := N_of_ascii c in
      String (hex_digit (N.div n 16)) (String (hex_digit (N.modulo n 16))
        (hex_EncodeToString src'))
  end.

Section Hasher.
(** The SHA-1 digest of everything written to a hash, [path.Join] of a
    directory and a name, and [filepath.Match] with its error dropped
    belong to the Go library and are parameters. *)
Variable sha1_Sum : string -> string.
Variable path_Join : string -> string -> string.
Variable filepath_Match : string -> string -> bool.

Definition excluded_dir (base : string) : bool :=
  String.eqb base ".git" || String.eqb base ".." || String.eqb base "node_modules"
  || String.eqb base "build" || String.eqb base "doc".

(** [name == "" || name[0] == '.'] *)
Definition hidden_name (name : string) : bool :=
  match name with
  | EmptyString => true
  | String c _ => Ascii.eqb c "."
  end.

(** Lines 288-295: the value of [found] after the loop over the filter. *)
Definition filter_found (patterns : list string) (filePath : string) : bool :=
  foldl (fun found pattern =>
           if filepath_Match pattern filePath then true
           else if filepath_Match pattern (filepath_Base filePath) then true
           else found)
        false patterns.

(** [directoryHash]; [node] is what the file system shows at [filePath].
    A hash under construction is the bytes written to it so far. *)
Fixpoint directoryHash (level : nat) (filePath : string) (w : WatchList)
    (node : FileNode) : string :=
  let h := filePath in
  match node with
  | StatError => sha1_Sum h
  | Directory names =>
      if Nat.ltb 0 level && excluded_dir (filepath_Base filePath) then EmptyString
      else
        match names with
        | None => sha1_Sum h
        | Some names =>
            sha1_Sum
              (fold_left
                 (fun h entry =>
                    if hidden_name (fst entry) then h
                    else h +:+ directoryHash (S level) (path_Join filePath (fst entry)) w
                                 (snd entry))
                 names h)
        end
  | RegularFile content =>
      let found :=
        match FileFilter w with
        | None => true
        | Some patterns => filter_found patterns filePath
        end in
      if negb found then EmptyString
      else
        match content with
        | None => sha1_Sum h
        | Some bytes => sha1_Sum (h +:+ bytes)
        end
  end.

Definition sourceTreeHash (fs : FileSystem) (w : WatchList) : string :=
  hex_EncodeToString
    (sha1_Sum (fold_left (fun h d => h +:+ directoryHash 0 d w (fs d)) (Paths w) EmptyString)).
End Hasher.

(** ** [Build.Run] *)

(** The flags [Run] parses. *)
Record Flags := {
  conf : CompileConfig;
  watch : bool;
  run : bool
}.

Section Run.
Context {W : Type}.
Variable sha1_Sum : string -> string.
Variable path_Join : string -> string -> string.
Variable filepath_Match : string -> string -> bool.

Definition treeHasher (fs : FileSystem) : WatchList -> string :=
  sourceTreeHash sha1_Sum path_Join filepath_Match fs.

(** Lines 163-169: with [-run], a [Run] that gets there waits for the
    executable and dies on its error. *)
Definition await_exit (run : bool) (exitErr : option error) (r : RunResult (W:=W))
  : RunResult :=
  match outcome r, run, exitErr with
  | Returned, true, Some e =>
      {| outcome := Fatal e; final_status := final_status r;
         final_world := final_world r; events := events r |}
  | _, _, _ => r
  end.

(** [Run] from after [flag.Parse].  [fs0] is the file system when the
    hashes are first recorded, [later] the file system at each iteration
    of the watch loop before the context is cancelled, and [exitErr] what
    the launched executable reports on [runErr] at line 164.  The
    goroutine that launches and relaunches the executable is kept out:
    of it only the restart signals it receives are recorded. *)
Definition Run (flags : Flags) (b : Build W) (fs0 : FileSystem)
    (later : list FileSystem) (exitErr : option error) (w : W) : RunResult :=
  let n := length (Steps b) in
  match initial_pass (watch flags) (conf flags) n 0 (Steps b) (make_status n) w with
  | PassFatal e w evs =>
      {| outcome := Fatal e; final_status := make_status n; final_world := w;
         events := evs |}
  | PassDone status w evs =>
      let r :=
        if watch flags then
          let status := init_hashes (treeHasher fs0) 0 (Steps b) status in
          watch_loop (run flags) (conf flags) (Steps b) (map treeHasher later) status w
        else
          {| outcome := Returned; final_status := status; final_world := w;
             events := [] |} in
      await_exit (run flags) exitErr (run_log_more evs r)
  end.
End Run.

(** ** Sample builds

    Concrete callbacks, hashers and file systems on which the statements
    below are exercised. *)

(** A callback whose results are scripted in the world: every call takes
    the next one, and succeeds once the script is used up. *)
Definition scripted : CompilerJob (list (option error)) :=
  fun _ w =>
    match w with
    | [] => (None, [])
    | r :: w' => (r, w')
    end.

Definition watching (p : string) : WatchList :=
  {| Paths := [p]; FileFilter := Some ["*.go"] |}.

Definition sample_step (p : string) : BuildStep (list (option error)) :=
  {| StepWatchList := watching p; Compile := scripted |}.

Definition sample_conf (quick : bool) : CompileConfig :=
  {| Development := false; Quick := quick; Version := "unknown-version";
     GOOS := ""; GOARCH := "" |}.

Definition clean_at (th : string) : sourceTreeStatus :=
  {| TreeHash := th; Dirty := false; Broken := false |}.

(** A stand-in digest that keeps the written bytes, and the join of a
    clean directory path with a plain name. *)
Definition raw_Sum (written : string) : string := written.
Definition slash_Join (dir name : string) : string := dir +:+ "/" +:+ name.

(** A stand-in for [filepath.Match] with its error dropped: the answer of
    [glob_match] where it has one, which covers the filters of the sample
    watch lists, and [false] elsewhere. *)
Definition sample_Match (pattern name : string) : bool :=
  match glob_match pattern name with
  | Some matched => matched
  | None => false
  end.

Definition sample_fs (body : string) : FileSystem :=
  fun p =>
    if String.eqb p "cmd" then
      Directory (Some [("main.go", RegularFile (Some body));
                       ("main.txt", RegularFile (Some "notes"));
                       (".git", Directory None)])
    else if String.eqb p "pkg" then
      Directory (Some [("lib", Directory (Some [("main.go", RegularFile (Some "package lib"))]))])
    else StatError.

Definition sample_hasher (body : string) : WatchList -> string :=
  sourceTreeHash raw_Sum slash_Join sample_Match (sample_fs body).

(** The sample file system with something else at a path nobody watches. *)
Definition sample_fs_elsewhere (body : string) : FileSystem :=
  fun p => if String.eqb p "tmp" then RegularFile (Some "scratch") else sample_fs body p.

Definition cmd_and_pkg : WatchList :=
  {| Paths := ["cmd"; "pkg"]; FileFilter := Some ["*.go"] |}.

(** The sample file system with more in it that the hasher does not look
    at: other notes, a filled [.git], a [node_modules] below a root. *)
Definition sample_fs_noise (body : string) : FileSystem :=
  fun p =>
    if String.eqb p "cmd" then
      Directory (Some [("main.go", RegularFile (Some body));
                       ("main.txt", RegularFile (Some "other notes"));
                       (".git", Directory (Some [("HEAD", RegularFile (Some "ref"))]));
                       ("node_modules",
                        Directory (Some [("dep.go", RegularFile (Some "package dep"))]))])
    else sample_fs body p.

Definition watch_only : Flags :=
  {| conf := sample_conf false; watch := true; run := false |}.

Definition build_once : Flags :=
  {| conf := sample_conf false; watch := false; run := false |}.

Definition unfiltered (p : string) : WatchList :=
  {| Paths := [p]; FileFilter := None |}.

Definition three_steps : list (BuildStep (list (option error))) :=
  [sample_step "cmd"; sample_step "pkg"; sample_step "doc"].

Definition one_step_build : Build (list (option error)) :=
  {| ExecutableName := "fooServer"; Steps := [sample_step "cmd"] |}.

Definition two_step_build : Build (list (option error)) :=
  {| ExecutableName := "fooServer"; Steps := [sample_step "cmd"; sample_step "pkg"] |}.

Definition watch_and_run : Flags :=
  {| conf := sample_conf false; watch := true; run := true |}.

(** ** Facts about the status machine *)

Definition called (i : nat) (evs : list Event) : Prop :=
  exists r, CallCompile i r ∈ evs.
Definition failed (i : nat) (evs : list Event) : Prop :=
  exists e, CallCompile i (Some e) ∈ evs.

(** No step is both Dirty and Broken. *)
Definition never_both (status : list sourceTreeStatus) : Prop :=
  forall i s, status !! i = Some s -> Dirty s = true -> Broken s = false.

(** The recorded hash of every step is the one [hash] gives its tree. *)
Definition hashes_recorded {W} (hash : WatchList -> string) (steps : list (BuildStep W))
    (status : list sourceTreeStatus) : Prop :=
  forall i bs s, steps !! i = Some bs -> status !! i = Some s ->
    TreeHash s = hash (StepWatchList bs).

(** The hasher [h] gives the trees of the steps up to [i] the same hashes
    as [hash] does: nothing changed in them. *)
Definition same_hashes_up_to {W} (i : nat) (steps : list (BuildStep W))
    (hash h : WatchList -> string) : Prop :=
  forall k bs, k <= i -> steps !! k = Some bs ->
    h (StepWatchList bs) = hash (StepWatchList bs).

(** The retry that the specification promises after a failed compile: a
    step after the failing one that was Dirty in the recompilation phase
    is compiled by the next tick, when that tick sees the same hashes. *)
Definition later_dirty_retried {W} (hash : WatchList -> string) (conf : CompileConfig)
    (steps : list (BuildStep W)) (status : list sourceTreeStatus) (w : W) : Prop :=
  forall r mid i e j s,
    tick hash conf steps status w = Some r ->
    detect_changes hash (Quick conf) 0 steps status = Some mid ->
    CallCompile i (Some e) ∈ tick_events r ->
    i < j -> mid !! j = Some s -> Dirty s = true ->
    exists r2,
      tick hash conf steps (tick_status r) (tick_world r) = Some r2 /\
      called j (tick_events r2).

(** ** More of the code, and what it is measured against *)

(** Whether the hash phase finds the tree of a step changed (line 120). *)
Definition changed {W} (hash : WatchList -> string) (bs : BuildStep W)
    (s : sourceTreeStatus) : bool :=
  negb (String.eqb (TreeHash s) (hash (StepWatchList bs))).

(** The hash phase as one pass over the steps: [upstream] tells whether
    the tree of an earlier step has changed. *)
Fixpoint single_pass {W} (hash : WatchList -> string) (quick upstream : bool)
    (steps : list (BuildStep W)) (status : list sourceTreeStatus)
  : list sourceTreeStatus :=
  match steps, status with
  | bs :: steps', s :: status' =>
      let ch := changed hash bs s in
      {| TreeHash := hash (StepWatchList bs);
         Dirty := Dirty s || ch || (upstream && (Broken s || negb quick));
         Broken := Broken s && negb (upstream || ch) |}
      :: single_pass hash quick (upstream || ch) steps' status'
  | _, _ => status
  end.

(** The calls of steps [i], ..., [i + m - 1], all successful. *)
Definition ok_calls (i m : nat) : list Event :=
  (fun j => CallCompile j None) <$> seq i m.

(** The [Build] that [Main] runs (lines 174-181). *)
Definition Main_build {W} (executableName : string) (compile : CompilerJob W)
    (watchList : WatchList) : Build W :=
  {| ExecutableName := executableName;
     Steps := [ {| StepWatchList := watchList; Compile := compile |} ] |}.

Definition set_Version (v : string) (c : CompileConfig) : CompileConfig :=
  {| Development := Development c; Quick := Quick c; Version := v;
     GOOS := GOOS c; GOARCH := GOARCH c |}.

(** [strings.TrimLeft(s, "v")] *)
Fixpoint trim_left_v (s : string) : string :=
  match s with
  | EmptyString => EmptyString
  | String c s' => if Ascii.eqb c "v" then trim_left_v s' else s
  end.

(** [withVersion] (lines 185-196).  [git_describe] is the run of
    [git describe] and its [Output]: [None] for an error, else the bytes
    printed; [strings_TrimSpace] belongs to the Go library. *)
Definition withVersion {W} (strings_TrimSpace : string -> string)
    (git_describe : W -> option string * W) (compile : CompilerJob W)
  : CompilerJob W :=
  fun conf w =>
    let conf := set_Version "unknown-version" conf in
    let '(out, w) := git_describe w in
    let conf :=
      match out with
      | Some gitDescribe =>
          if Nat.ltb 0 (String.length gitDescribe)
          then set_Version (trim_left_v (strings_TrimSpace gitDescribe)) conf
          else conf
      | None => conf
      end in
    compile conf w.

(** What [directoryHash] looks at below a path: hidden names, excluded
    directories below the roots and files that the filter rejects are
    left out; [None] when nothing of the node itself is looked at. *)
Fixpoint visible (path_Join : string -> string -> string)
    (filepath_Match : string -> string -> bool)
    (level : nat) (filePath : string) (w : WatchList) (node : FileNode)
  : option FileNode :=
  match node with
  | StatError => Some StatError
  | Directory names =>
      if Nat.ltb 0 level && excluded_dir (filepath_Base filePath) then None
      else
        match names with
        | None => Some (Directory None)
        | Some names =>
            Some (Directory (Some
              (omap (fun entry =>
                       if hidden_name (fst entry) then None
                       else pair (fst entry)
                              <$> visible path_Join filepath_Match (S level)
                                    (path_Join filePath (fst entry)) w (snd entry))
                    names)))
        end
  | RegularFile content =>
      let found :=
        match FileFilter w with
        | None => true
        | Some patterns => filter_found filepath_Match patterns filePath
        end in
      if found then Some (RegularFile content) else None
  end.

(** *** SHA-1

    [crypto/sha1] as FIPS 180 gives it, on 32-bit words kept in [N]: the
    padded message is cut in blocks of 64 bytes, each block fills a
    schedule of 80 words and goes through 80 rounds. *)

Definition mask32 (x : N) : N := N.land x 0xFFFFFFFF%N.
Definition add32 (x y : N) : N := mask32 (N.add x y).
Definition rotl32 (n x : N) : N :=
  mask32 (N.lor (N.shiftl x n) (N.shiftr x (N.sub 32 n))).
Definition not32 (x : N) : N := N.lxor x 0xFFFFFFFF%N.

(** [x] on [count] bytes, the most significant first. *)
Definition be_bytes (count : nat) (x : N) : list N :=
  map (fun i => N.land (N.shiftr x (N.mul 8 (N.of_nat i))) 0xFF%N) (rev (seq 0 count)).

(** The message, the byte [0x80], zeros up to 56 modulo 64, and the
    length of the message in bits on 8 bytes. *)
Definition sha1_pad (msg : list N) : list N :=
  msg ++ [0x80%N] ++ repeat 0%N ((119 - length msg mod 64) mod 64)
      ++ be_bytes 8 (N.mul 8 (N.of_nat (length msg))).

Fixpoint be_words (count : nat) (bytes : list N) : list N :=
  match count, bytes with
  | S count', b0 :: b1 :: b2 :: b3 :: rest =>
      N.lor (N.shiftl b0 24) (N.lor (N.shiftl b1 16) (N.lor (N.shiftl b2 8) b3))
      :: be_words count' rest
  | _, _ => []
  end.

(** The schedule, newest word first. *)
Fixpoint sha1_schedule (count : nat) (ws : list N) : list N :=
  match count with
  | O => ws
  | S count' =>
      sha1_schedule count'
        (rotl32 1 (N.lxor (N.lxor (nth 2 ws 0%N) (nth 7 ws 0%N))
                          (N.lxor (nth 13 ws 0%N) (nth 15 ws 0%N))) :: ws)
  end.

Definition sha1_round (t : nat) (st : N * N * N * N * N) (w : N) : N * N * N * N * N :=
  let '(a, b, c, d, e) := st in
  let '(f, k) :=
    if Nat.ltb t 20 then (N.lor (N.land b c) (N.land (not32 b) d), 0x5A827999%N)
    else if Nat.ltb t 40 then (N.lxor b (N.lxor c d), 0x6ED9EBA1%N)
    else if Nat.ltb t 60
      then (N.lor (N.land b c) (N.lor (N.land b d) (N.land c d)), 0x8F1BBCDC%N)
    else (N.lxor b (N.lxor c d), 0xCA62C1D6%N) in
  (add32 (add32 (add32 (add32 (rotl32 5 a) f) e) k) w, a, rotl32 30 b, c, d).

Fixpoint sha1_rounds (t : nat) (ws : list N) (st : N * N * N * N * N)
  : N * N * N * N * N :=
  match ws with
  | [] => st
  | w :: ws' => sha1_rounds (S t) ws' (sha1_round t st w)
  end.

Definition sha1_block (h : N * N * N * N * N) (block : list N) : N * N * N * N * N :=
  let ws := rev (sha1_schedule 64 (rev (be_words 16 block))) in
  let '(h0, h1, h2, h3, h4) := h in
  let '(a, b, c, d, e) := sha1_rounds 0 ws h in
  (add32 h0 a, add32 h1 b, add32 h2 c, add32 h3 d, add32 h4 e).

Fixpoint sha1_blocks (count : nat) (h : N * N * N * N * N) (bytes : list N)
  : N * N * N * N * N :=
  match count with
  | O => h
  | S count' => sha1_blocks count' (sha1_block h (firstn 64 bytes)) (skipn 64 bytes)
  end.

(** The digest, 20 bytes, of everything written to a [sha1.New()]. *)
Definition SHA1 (written : string) : string :=
  let bytes := sha1_pad (map N_of_ascii (list_ascii_of_string written)) in
  let '(h0, h1, h2, h3, h4) :=
    sha1_blocks (length bytes / 64)
      (0x67452301%N, 0xEFCDAB89%N, 0x98BADCFE%N, 0x10325476%N, 0xC3D2E1F0%N) bytes in
  string_of_list_ascii
    (map ascii_of_N
       (be_bytes 4 h0 ++ be_bytes 4 h1 ++ be_bytes 4 h2 ++ be_bytes 4 h3 ++ be_bytes 4 h4)).

(** *** Same content, same order, and what reaches a digest *)

Section Forall2b.
Variables (A B : Type) (f : A -> B -> bool).

Fixpoint forall2b (l1 : list A) (l2 : list B) : bool :=
  match l1, l2 with
  | [], [] => true
  | a :: l1', b :: l2' => f a b && forall2b l1' l2'
  | _, _ => false
  end.
End Forall2b.
Arguments forall2b {A B} f l1 l2.

Fixpoint distinct (names : list string) : bool :=
  match names with
  | [] => true
  | name :: names' => negb (existsb (String.eqb name) names') && distinct names'
  end.

Definition same_bytes (c1 c2 : option string) : bool :=
  match c1, c2 with
  | Some b1, Some b2 => String.eqb b1 b2
  | None, None => true
  | _, _ => false
  end.

(** Two trees with the same paths, the same names and the same bytes, and
    failing at the same paths: every entry of a directory has, somewhere
    in the listing of the other, an entry of the same name with the same
    content.  The order of the listings is left free. *)
Fixpoint same_content (n1 n2 : FileNode) : bool :=
  match n1, n2 with
  | StatError, StatError => true
  | RegularFile c1, RegularFile c2 => same_bytes c1 c2
  | Directory None, Directory None => true
  | Directory (Some l1), Directory (Some l2) =>
      Nat.eqb (length l1) (length l2) && distinct (map fst l1)
      && forallb (fun e1 =>
                    existsb (fun e2 => String.eqb (fst e1) (fst e2)
                                       && same_content (snd e1) (snd e2)) l2) l1
  | _, _ => false
  end.

(** Two trees whose directories list their names in the same order. *)
Fixpoint same_order (n1 n2 : FileNode) : bool :=
  match n1, n2 with
  | Directory (Some l1), Directory (Some l2) =>
      forall2b (fun e1 e2 => String.eqb (fst e1) (fst e2)
                             && same_order (snd e1) (snd e2)) l1 l2
  | _, _ => true
  end.

(** [reaches sum x d]: the bytes [x] are written to a hash whose digest is
    [d], or whose digest is written to a hash, and so on up to [d]. *)
Inductive reaches (sum : string -> string) (x : string) : string -> Prop :=
| reaches_here (pre post : string) :
    reaches sum x (sum (pre +:+ x +:+ post))
| reaches_above (pre post d : string) :
    reaches sum x d -> reaches sum x (sum (pre +:+ d +:+ post)).

(** The first entry of a listing with a given name. *)
Fixpoint entry_named (name : string) (names : list (string * FileNode))
  : option FileNode :=
  match names with
  | [] => None
  | entry :: names' =>
      if String.eqb (fst entry) name then Some (snd entry)
      else entry_named name names'
  end.

Fixpoint replace_entry (name : string) (new : FileNode)
    (names : list (string * FileNode)) : list (string * FileNode) :=
  match names with
  | [] => []
  | entry :: names' =>
      if String.eqb (fst entry) name then (fst entry, new) :: names'
      else entry :: replace_entry name new names'
  end.

(** The node found by following [route], a name at each directory, and
    the path [directoryHash] gives it. *)
Fixpoint node_at (path_Join : string -> string -> string) (filePath : string)
    (route : list string) (node : FileNode) : option (string * FileNode) :=
  match route with
  | [] => Some (filePath, node)
  | name :: route' =>
      match node with
      | Directory (Some names) =>
          match entry_named name names with
          | Some child => node_at path_Join (path_Join filePath name) route' child
          | None => None
          end
      | _ => None
      end
  end.

(** Whether [directoryHash] walks down [route]: no directory on it is
    skipped and no name on it is hidden. *)
Fixpoint route_seen (path_Join : string -> string -> string) (level : nat)
    (filePath : string) (route : list string) (node : FileNode) : bool :=
  match route with
  | [] => true
  | name :: route' =>
      match node with
      | Directory (Some names) =>
          negb (Nat.ltb 0 level && excluded_dir (filepath_Base filePath))
          && negb (hidden_name name)
          && match entry_named name names with
             | Some child =>
                 route_seen path_Join (S level) (path_Join filePath name) route' child
             | None => false
             end
      | _ => false
      end
  end.

(** The tree with [new] at the end of [route]. *)
Fixpoint put_at (route : list string) (new : FileNode) (node : FileNode) : FileNode :=
  match route with
  | [] => new
  | name :: route' =>
      match node with
      | Directory (Some names) =>
          match entry_named name names with
          | Some child =>
              Directory (Some (replace_entry name (put_at route' new child) names))
          | None => node
          end
      | _ => node
      end
  end.

(** The file system with [node] at the root [d]. *)
Definition with_root (fs : FileSystem) (d : string) (node : FileNode) : FileSystem :=
  fun p => if String.eqb p d then node else fs p.

(** Sample trees: one directory listed in two orders, and a [main.go]
    below a directory named [build]. *)
Definition listed (first second : string) : FileSystem :=
  fun p =>
    if String.eqb p "cmd" then
      Directory (Some [(first, RegularFile (Some "package main"));
                       (second, RegularFile (Some "package main"))])
    else StatError.

Definition built (body : string) : FileSystem :=
  fun p =>
    if String.eqb p "cmd" then
      Directory (Some [("build",
                        Directory (Some [("main.go", RegularFile (Some body))]))])
    else StatError.

(** Split a membership in a list of events written out by its first
    elements, dropping the elements of another shape. *)
Ltac in_events H :=
  repeat match type of H with
         | _ ∈ [] => by apply elem_of_nil in H
         | _ ∈ _ :: _ => apply elem_of_cons in H as [H|H]; [try discriminate H|]
         end.

Section StatusFacts.
Context {W : Type}.
Implicit Types (steps : list (BuildStep W)) (status : list sourceTreeStatus).
Implicit Types (hash : WatchList -> string) (w : W).

Lemma never_both_forallb status :
  forallb (fun s => negb (Dirty s && Broken s)) status = true ->
  never_both status.
Proof.
  intros H i s Hs Hd. rewrite forallb_forall in H.
  apply list_elem_of_lookup_2, list_elem_of_In, H in Hs.
  rewrite Hd in Hs. by destruct (Broken s).
Qed.

Lemma alter_range_lookup {A} (f : A -> A) (l : list A) (from k j : nat) :
  foldl (fun st j => alter f j st) l (seq from k) !! j
  = if decide (from <= j < from + k) then f <$> l !! j else l !! j.
Proof.
  revert from l. induction k as [|k IH]; intros from l; simpl.
  - case_decide; [lia | done].
  - rewrite IH. destruct (decide (j = from)) as [->|Hne].
    + rewrite list_lookup_alter_eq. repeat case_decide; try lia; done.
    + rewrite list_lookup_alter_ne by done.
      repeat case_decide; try lia; done.
Qed.

Lemma alter_range_length {A} (f : A -> A) (l : list A) (from k : nat) :
  length (foldl (fun st j => alter f j st) l (seq from k)) = length l.
Proof.
  revert from l. induction k as [|k IH]; intros from l; simpl; [done|].
  by rewrite IH, length_alter.
Qed.

Lemma cascade_length quick from status :
  length (cascade quick from status) = length status.
Proof. apply alter_range_length. Qed.

Lemma cascade_lookup quick from status j :
  cascade quick from status !! j
  = if decide (from <= j) then cascade_one quick <$> status !! j else status !! j.
Proof.
  unfold cascade. rewrite alter_range_lookup.
  destruct (decide (j < length status)) as [Hlt|Hge].
  - repeat case_decide; try lia; done.
  - assert (status !! j = None) as -> by (apply lookup_ge_None; lia).
    repeat case_decide; done.
Qed.

Lemma mark_changed_length quick i th status :
  length (mark_changed quick i th status) = length status.
Proof.
  unfold mark_changed. by rewrite length_alter, cascade_length, length_alter.
Qed.

Lemma mark_changed_lookup quick i th status j :
  mark_changed quick i th status !! j
  = if decide (j < i) then status !! j
    else if decide (j = i)
         then (fun s => {| TreeHash := th; Dirty := true; Broken := false |}) <$> status !! j
         else cascade_one quick <$> status !! j.
Proof.
  unfold mark_changed.
  destruct (decide (j = i)) as [->|Hne].
  - rewrite list_lookup_alter_eq, cascade_lookup, list_lookup_alter_eq.
    repeat case_decide; try lia. by destruct (status !! i).
  - rewrite list_lookup_alter_ne, cascade_lookup, list_lookup_alter_ne by done.
    repeat case_decide; try lia; done.
Qed.

Lemma cascade_one_TreeHash quick s : TreeHash (cascade_one quick s) = TreeHash s.
Proof. unfold cascade_one. by destruct (Broken s), quick. Qed.

Lemma cascade_one_never_both quick s :
  (Dirty s = true -> Broken s = false) ->
  Dirty (cascade_one quick s) = true -> Broken (cascade_one quick s) = false.
Proof. unfold cascade_one. destruct (Broken s) eqn:?, quick; simpl; auto. Qed.

(** *** The hash phase *)

Lemma detect_changes_changed hash quick i (st : BuildStep W) rest status s :
  status !! i = Some s ->
  TreeHash s <> hash (StepWatchList st) ->
  detect_changes hash quick i (st :: rest) status
  = detect_changes hash quick (S i) rest
      (mark_changed quick i (hash (StepWatchList st)) status).
Proof.
  intros Hs Hne. simpl. rewrite Hs.
  apply String.eqb_neq in Hne. by rewrite Hne.
Qed.

Lemma detect_changes_same hash quick i (st : BuildStep W) rest status s :
  status !! i = Some s ->
  TreeHash s = hash (StepWatchList st) ->
  detect_changes hash quick i (st :: rest) status
  = detect_changes hash quick (S i) rest status.
Proof.
  intros Hs Heq. simpl. rewrite Hs.
  apply String.eqb_eq in Heq. by rewrite Heq.
Qed.

Lemma detect_changes_length hash quick steps : forall i status status',
  detect_changes hash quick i steps status = Some status' ->
  length status' = length status.
Proof.
  induction steps as [|st rest IH]; intros i status status' H; simpl in H.
  - by inversion H.
  - destruct (status !! i) as [s|]; [|done].
    apply IH in H. rewrite H.
    destruct (negb _); [apply mark_changed_length | done].
Qed.

Lemma detect_changes_Some hash quick steps : forall i status,
  i + length steps <= length status ->
  is_Some (detect_changes hash quick i steps status).
Proof.
  induction steps as [|st rest IH]; intros i status Hlen; simpl in *.
  - by eexists.
  - destruct (lookup_lt_is_Some_2 status i) as [s Hs]; [lia|].
    rewrite Hs. apply IH.
    destruct (negb _); [rewrite mark_changed_length|]; lia.
Qed.

Lemma detect_changes_below hash quick steps : forall i status status' j,
  detect_changes hash quick i steps status = Some status' ->
  j < i -> status' !! j = status !! j.
Proof.
  induction steps as [|st rest IH]; intros i status status' j H Hj; simpl in H.
  - by inversion H.
  - destruct (status !! i) as [s|]; [|done].
    rewrite (IH _ _ _ j H) by lia.
    destruct (negb _); [|done].
    rewrite mark_changed_lookup. case_decide; [done | lia].
Qed.

Lemma detect_changes_TreeHash hash quick steps : forall i status status' k bs,
  detect_changes hash quick i steps status = Some status' ->
  steps !! k = Some bs ->
  exists s', status' !! (i + k) = Some s' /\ TreeHash s' = hash (StepWatchList bs).
Proof.
  induction steps as [|st rest IH]; intros i status status' k bs H Hk; [done|].
  simpl in H. destruct (status !! i) as [s|] eqn:Hs; [|done].
  destruct k as [|k]; simpl in Hk.
  - inversion Hk; subst bs. rewrite Nat.add_0_r.
    rewrite (detect_changes_below _ _ _ _ _ _ i H) by lia.
    destruct (String.eqb (TreeHash s) (hash (StepWatchList st))) eqn:Heq; simpl.
    + exists s. split; [done|]. by apply String.eqb_eq.
    + rewrite mark_changed_lookup, Hs. repeat case_decide; try lia.
      simpl. by eexists.
  - replace (i + S k) with (S i + k) by lia. by eapply IH.
Qed.

(** With every recorded hash up to step [m] equal to the current one,
    the hash phase leaves the statuses up to [m] as they are. *)
Lemma detect_changes_prefix hash quick m steps : forall i status status',
  (forall k bs s, i + k <= m -> steps !! k = Some bs -> status !! (i + k) = Some s ->
     TreeHash s = hash (StepWatchList bs)) ->
  detect_changes hash quick i steps status = Some status' ->
  forall j, j <= m -> status' !! j = status !! j.
Proof.
  induction steps as [|st rest IH]; intros i status status' Hrec H j Hj; simpl in H.
  - by inversion H.
  - destruct (status !! i) as [s|] eqn:Hs; [|done].
    destruct (decide (i <= m)) as [Him|Him].
    + assert (TreeHash s = hash (StepWatchList st)) as Heq.
      { apply (Hrec 0); [lia | done | by rewrite Nat.add_0_r]. }
      apply String.eqb_eq in Heq. rewrite Heq in H. simpl in H.
      eapply IH; [| exact H | done].
      intros k bs s0 Hk Hbs Hs0. apply (Hrec (S k)); [lia | done |].
      by replace (i + S k) with (S i + k) by lia.
    + rewrite (detect_changes_below _ _ _ _ _ _ j H) by lia.
      destruct (negb _); [|done].
      rewrite mark_changed_lookup. case_decide; [done | lia].
Qed.

(** No recorded hash differs: the hash phase changes nothing. *)
Lemma detect_changes_unchanged hash quick steps status :
  length status = length steps ->
  hashes_recorded hash steps status ->
  detect_changes hash quick 0 steps status = Some status.
Proof.
  intros Hlen Hrec.
  destruct (detect_changes_Some hash quick steps 0 status) as [status' H]; [simpl; lia|].
  rewrite H. f_equal. apply list_eq. intros j.
  destruct (decide (j < length status)) as [Hj|Hj].
  - eapply (detect_changes_prefix hash quick j); [| exact H | done].
    intros k bs s _ Hbs Hs. by eapply Hrec.
  - rewrite !(proj2 (lookup_ge_None _ _)); [done | lia |].
    apply detect_changes_length in H. lia.
Qed.

Lemma detect_changes_records hash quick steps status status' :
  detect_changes hash quick 0 steps status = Some status' ->
  hashes_recorded hash steps status'.
Proof.
  intros H i bs s Hbs Hs.
  destruct (detect_changes_TreeHash _ _ _ _ _ _ _ _ H Hbs) as (s' & Hs' & Hth).
  simpl in Hs'. congruence.
Qed.

Lemma mark_changed_never_both quick i th status :
  never_both status -> never_both (mark_changed quick i th status).
Proof.
  intros Hnb j s. rewrite mark_changed_lookup.
  repeat case_decide.
  - apply Hnb.
  - destruct (status !! j); simpl; [|done]. by intros [= <-].
  - destruct (status !! j) as [s0|] eqn:Hs0; simpl; [|done].
    intros [= <-]. apply cascade_one_never_both. by eapply Hnb.
Qed.

Lemma detect_changes_never_both hash quick steps : forall i status status',
  never_both status ->
  detect_changes hash quick i steps status = Some status' ->
  never_both status'.
Proof.
  induction steps as [|st rest IH]; intros i status status' Hnb H; simpl in H.
  - by inversion H; subst.
  - destruct (status !! i) as [s|]; [|done].
    eapply IH; [| exact H].
    destruct (negb _); [by apply mark_changed_never_both | done].
Qed.

(** *** The recompilation phase *)

(** The three ways one iteration of the loop at lines 140-156 can go. *)
Lemma recompile_cons_inv conf n i bs rest status w sr r :
  recompile conf n i (bs :: rest) status w sr = Some r ->
  exists s, status !! i = Some s /\
    ((Dirty s = false /\ recompile conf n (S i) rest status w sr = Some r)
     \/ (Dirty s = true /\ exists e w',
           Compile bs conf w = (Some e, w') /\
           r = {| tick_status := alter (set_Dirty false) i status;
                  tick_world := w';
                  tick_events := [LogRecompiling i; CallCompile i (Some e);
                                  LogCompilationError e];
                  tick_restart := if Nat.eqb i (n - 1) then true else sr |})
     \/ (Dirty s = true /\ exists w' r',
           Compile bs conf w = (None, w') /\
           recompile conf n (S i) rest
             (alter (set_Broken true) i (alter (set_Dirty false) i status)) w'
             (if Nat.eqb i (n - 1) then true else sr) = Some r' /\
           r = log_more [LogRecompiling i; CallCompile i None] r')).
Proof.
  simpl. destruct (status !! i) as [s|]; [|done].
  intros H. exists s. split; [done|].
  destruct (Dirty s); simpl in H; [|by left].
  right. destruct (Compile bs conf w) as [[e|] w'].
  - left. split; [done|]. exists e, w'. split; [done|]. by inversion H.
  - right. split; [done|]. apply fmap_Some in H as (r' & Hr' & ->).
    by exists w', r'.
Qed.

Lemma recompile_Some conf n steps : forall i status w sr,
  i + length steps <= length status ->
  is_Some (recompile conf n i steps status w sr).
Proof.
  induction steps as [|bs rest IH]; intros i status w sr Hlen; simpl in *.
  - by eexists.
  - destruct (lookup_lt_is_Some_2 status i) as [s Hs]; [lia|]. rewrite Hs.
    destruct (Dirty s); simpl; [|apply IH; lia].
    destruct (Compile bs conf w) as [[e|] w']; [by eexists|].
    apply fmap_is_Some, IH. rewrite !length_alter. lia.
Qed.

Lemma recompile_length conf n steps : forall i status w sr r,
  recompile conf n i steps status w sr = Some r ->
  length (tick_status r) = length status.
Proof.
  induction steps as [|bs rest IH]; intros i status w sr r H.
  - by inversion H.
  - apply recompile_cons_inv in H
      as (s & Hs & [[_ H] | [(_ & e & w' & _ & ->) | (_ & w' & r' & _ & H & ->)]]).
    + by eapply IH.
    + simpl. by rewrite length_alter.
    + simpl. apply IH in H. by rewrite H, !length_alter.
Qed.

(** Only steps from [i] on are compiled. *)
Lemma recompile_called_range conf n steps : forall i status w sr r j x,
  recompile conf n i steps status w sr = Some r ->
  CallCompile j x ∈ tick_events r ->
  i <= j < i + length steps.
Proof.
  induction steps as [|bs rest IH]; intros i status w sr r j x H Hin.
  - inversion H; subst; simpl in Hin. by apply elem_of_nil in Hin.
  - apply recompile_cons_inv in H
      as (s & Hs & [[_ H] | [(_ & e & w' & _ & ->) | (_ & w' & r' & _ & H & ->)]]);
      simpl in *.
    + eapply IH in H; [|done]. lia.
    + in_events Hin. simplify_eq. lia.
    + in_events Hin; [simplify_eq; lia|].
      eapply IH in H; [|done]. lia.
Qed.

Lemma recompile_below conf n steps : forall i status w sr r j,
  recompile conf n i steps status w sr = Some r ->
  j < i -> tick_status r !! j = status !! j.
Proof.
  induction steps as [|bs rest IH]; intros i status w sr r j H Hj.
  - by inversion H.
  - apply recompile_cons_inv in H
      as (s & Hs & [[_ H] | [(_ & e & w' & _ & ->) | (_ & w' & r' & _ & H & ->)]]);
      simpl.
    + eapply IH; [done | lia].
    + apply list_lookup_alter_ne. lia.
    + rewrite (IH _ _ _ _ _ j H) by lia.
      rewrite !list_lookup_alter_ne by lia. done.
Qed.

(** A failed compile ends the phase: it is the last call of the tick. *)
Lemma recompile_failed_last conf n steps : forall i status w sr r k e j x,
  recompile conf n i steps status w sr = Some r ->
  CallCompile k (Some e) ∈ tick_events r ->
  CallCompile j x ∈ tick_events r ->
  j <= k.
Proof.
  induction steps as [|bs rest IH]; intros i status w sr r k e j x H Hk Hj.
  - inversion H; subst; simpl in Hk. by apply elem_of_nil in Hk.
  - apply recompile_cons_inv in H
      as (s & Hs & [[_ H] | [(_ & e' & w' & _ & ->) | (_ & w' & r' & _ & H & ->)]]);
      simpl in *.
    + by eapply IH.
    + in_events Hk. in_events Hj. simplify_eq. lia.
    + in_events Hk. in_events Hj.
      * simplify_eq. eapply recompile_called_range in Hk; [|done]. lia.
      * by eapply IH.
Qed.

(** No step is compiled twice in one phase. *)
Lemma recompile_call_once conf n steps : forall i status w sr r j x y,
  recompile conf n i steps status w sr = Some r ->
  CallCompile j x ∈ tick_events r ->
  CallCompile j y ∈ tick_events r ->
  x = y.
Proof.
  induction steps as [|bs rest IH]; intros i status w sr r j x y H Hx Hy.
  - inversion H; subst; simpl in Hx. by apply elem_of_nil in Hx.
  - apply recompile_cons_inv in H
      as (s & Hs & [[_ H] | [(_ & e' & w' & _ & ->) | (_ & w' & r' & _ & H & ->)]]);
      simpl in *.
    + by eapply IH.
    + in_events Hx. in_events Hy. by simplify_eq.
    + in_events Hx; in_events Hy.
      * by simplify_eq.
      * simplify_eq. eapply recompile_called_range in Hy; [|done]. lia.
      * simplify_eq. eapply recompile_called_range in Hx; [|done]. lia.
      * by eapply IH.
Qed.

(** What the phase does to the status of one step: nothing when the
    step is not compiled, [Dirty] cleared and [Broken] set when its
    compile succeeds, only [Dirty] cleared when it fails. *)
Lemma recompile_at conf n steps : forall i status w sr r j s,
  recompile conf n i steps status w sr = Some r ->
  status !! j = Some s ->
  (tick_status r !! j = Some s /\ ~ called j (tick_events r))
  \/ (Dirty s = true /\ CallCompile j None ∈ tick_events r /\
      tick_status r !! j = Some (set_Broken true (set_Dirty false s)))
  \/ (Dirty s = true /\ failed j (tick_events r) /\
      tick_status r !! j = Some (set_Dirty false s)).
Proof.
  induction steps as [|bs rest IH]; intros i status w sr r j s H Hj.
  - inversion H; subst; simpl. left. split; [done|].
    intros [x Hx]. by apply elem_of_nil in Hx.
  - apply recompile_cons_inv in H
      as (si & Hs & [[_ H] | [(Hd & e & w' & _ & ->) | (Hd & w' & r' & _ & H & ->)]]);
      simpl.
    + by eapply IH.
    + destruct (decide (j = i)) as [->|Hne].
      * right; right. assert (si = s) as -> by congruence. split; [done|]. split.
        -- exists e. apply elem_of_cons; right. apply elem_of_cons; by left.
        -- by rewrite list_lookup_alter_eq, Hj.
      * left. rewrite list_lookup_alter_ne by done. split; [done|].
        intros [x Hx]. in_events Hx. simplify_eq.
    + destruct (decide (j = i)) as [->|Hne].
      * right; left. assert (si = s) as -> by congruence. split; [done|]. split.
        -- apply elem_of_cons; right. apply elem_of_cons; by left.
        -- rewrite (recompile_below _ _ _ _ _ _ _ _ i H) by lia.
           by rewrite !list_lookup_alter_eq, Hj.
      * assert (alter (set_Broken true) i (alter (set_Dirty false) i status) !! j = Some s)
          as Hj' by (by rewrite !list_lookup_alter_ne).
        destruct (IH _ _ _ _ _ _ _ H Hj') as [[Hst Hnc] | [(? & Hc & Hst) | (? & [e Hc] & Hst)]].
        -- left. split; [done|]. intros [x Hx]. in_events Hx; [simplify_eq|].
           apply Hnc. by exists x.
        -- right; left. split; [done|]. split; [|done].
           do 2 (apply elem_of_cons; right). done.
        -- right; right. split; [done|]. split; [|done].
           exists e. do 2 (apply elem_of_cons; right). done.
Qed.

(** A Dirty step is compiled unless the phase stops at a step before it. *)
Lemma recompile_progress conf n steps : forall i status w sr r j s,
  recompile conf n i steps status w sr = Some r ->
  status !! j = Some s -> Dirty s = true ->
  i <= j < i + length steps ->
  called j (tick_events r) \/ exists k, i <= k < j /\ failed k (tick_events r).
Proof.
  induction steps as [|bs rest IH]; intros i status w sr r j s H Hj Hd Hr;
    [simpl in Hr; lia|].
  apply recompile_cons_inv in H
    as (si & Hs & [[Hdi H] | [(Hdi & e & w' & _ & ->) | (Hdi & w' & r' & _ & H & ->)]]);
    simpl in *.
  - assert (j <> i) by (intros ->; congruence).
    destruct (IH _ _ _ _ _ _ _ H Hj Hd) as [?|(k & ? & ?)]; [lia | by left |].
    right. exists k. split; [lia | done].
  - destruct (decide (j = i)) as [->|Hne].
    + left. exists (Some e). apply elem_of_cons; right. apply elem_of_cons; by left.
    + right. exists i. split; [lia|]. exists e.
      apply elem_of_cons; right. apply elem_of_cons; by left.
  - destruct (decide (j = i)) as [->|Hne].
    + left. exists None. apply elem_of_cons; right. apply elem_of_cons; by left.
    + assert (alter (set_Broken true) i (alter (set_Dirty false) i status) !! j = Some s)
        as Hj' by (by rewrite !list_lookup_alter_ne).
      destruct (IH _ _ _ _ _ _ _ H Hj' Hd) as [[x Hx]|(k & ? & [e He])]; [lia | |].
      * left. exists x. do 2 (apply elem_of_cons; right). done.
      * right. exists k. split; [lia|]. exists e.
        do 2 (apply elem_of_cons; right). done.
Qed.

(** [shouldRestart] is set exactly when the callback of the last step is
    called, whatever it returns. *)
Lemma recompile_restart conf n steps : forall i status w sr r,
  recompile conf n i steps status w sr = Some r ->
  tick_restart r = true <-> sr = true \/ called (n - 1) (tick_events r).
Proof.
  induction steps as [|bs rest IH]; intros i status w sr r H.
  - inversion H; subst; simpl. split; [by left|].
    intros [?|[x Hx]]; [done | by apply elem_of_nil in Hx].
  - apply recompile_cons_inv in H
      as (si & Hs & [[Hdi H] | [(Hdi & e & w' & _ & ->) | (Hdi & w' & r' & _ & H & ->)]]);
      simpl.
    + by eapply IH.
    + destruct (Nat.eqb_spec i (n - 1)) as [->|Hne].
      * split; [|done]. intros _. right. exists (Some e).
        apply elem_of_cons; right. apply elem_of_cons; by left.
      * split; [by left|]. intros [?|[x Hx]]; [done|].
        in_events Hx. simplify_eq.
    + rewrite (IH _ _ _ _ _ H).
      destruct (Nat.eqb_spec i (n - 1)) as [->|Hne].
      * split; [|by left]. intros _. right. exists None.
        apply elem_of_cons; right. apply elem_of_cons; by left.
      * split.
        -- intros [?|[x Hx]]; [by left|]. right. exists x.
           do 2 (apply elem_of_cons; right). done.
        -- intros [?|[x Hx]]; [by left|]. right. exists x.
           in_events Hx; [simplify_eq | done].
Qed.

(** With no step Dirty the phase does nothing. *)
Lemma recompile_clean conf n steps : forall i status w sr,
  i + length steps <= length status ->
  (forall j s, status !! j = Some s -> Dirty s = false) ->
  recompile conf n i steps status w sr
  = Some {| tick_status := status; tick_world := w; tick_events := [];
            tick_restart := sr |}.
Proof.
  induction steps as [|bs rest IH]; intros i status w sr Hlen Hclean; simpl in *;
    [done|].
  destruct (lookup_lt_is_Some_2 status i) as [s Hs]; [lia|]. rewrite Hs.
  rewrite (Hclean _ _ Hs). simpl. apply IH; [lia | done].
Qed.

Lemma recompile_never_both conf n steps i status w sr r :
  never_both status ->
  recompile conf n i steps status w sr = Some r ->
  never_both (tick_status r).
Proof.
  intros Hnb H j s' Hj Hd.
  destruct (lookup_lt_is_Some_2 status j) as [s Hs].
  { rewrite <- (recompile_length _ _ _ _ _ _ _ _ H). by eapply lookup_lt_Some. }
  destruct (recompile_at _ _ _ _ _ _ _ _ _ _ H Hs) as [[Hst _] | [(_ & _ & Hst) | (_ & _ & Hst)]];
    rewrite Hst in Hj; simplify_eq; simpl in *; try done.
  by eapply Hnb.
Qed.

Lemma recompile_TreeHash conf n steps i status w sr r j s' :
  recompile conf n i steps status w sr = Some r ->
  tick_status r !! j = Some s' ->
  exists s, status !! j = Some s /\ TreeHash s' = TreeHash s.
Proof.
  intros H Hj.
  destruct (lookup_lt_is_Some_2 status j) as [s Hs].
  { rewrite <- (recompile_length _ _ _ _ _ _ _ _ H). by eapply lookup_lt_Some. }
  exists s. split; [done|].
  destruct (recompile_at _ _ _ _ _ _ _ _ _ _ H Hs) as [[Hst _] | [(_ & _ & Hst) | (_ & _ & Hst)]];
    rewrite Hst in Hj; by simplify_eq.
Qed.

(** *** A whole tick *)

Lemma tick_inv hash conf steps status w r :
  tick hash conf steps status w = Some r ->
  exists mid,
    detect_changes hash (Quick conf) 0 steps status = Some mid /\
    recompile conf (length steps) 0 steps mid w false = Some r.
Proof.
  unfold tick. destruct (detect_changes _ _ _ _ _) as [mid|]; [|done].
  intros H. by exists mid.
Qed.

(** With one status per step no index is out of range. *)
Lemma tick_Some hash conf steps status w :
  length status = length steps ->
  is_Some (tick hash conf steps status w).
Proof.
  intros Hlen. unfold tick.
  destruct (detect_changes_Some hash (Quick conf) steps 0 status) as [mid Hmid];
    [simpl; lia|].
  rewrite Hmid. apply recompile_Some.
  apply detect_changes_length in Hmid. simpl. lia.
Qed.

Lemma tick_length hash conf steps status w r :
  tick hash conf steps status w = Some r ->
  length (tick_status r) = length status.
Proof.
  intros (mid & Hmid & Hr)%tick_inv.
  apply recompile_length in Hr. apply detect_changes_length in Hmid. congruence.
Qed.

Lemma tick_never_both hash conf steps status w r :
  never_both status ->
  tick hash conf steps status w = Some r ->
  never_both (tick_status r).
Proof.
  intros Hnb (mid & Hmid & Hr)%tick_inv.
  eapply recompile_never_both; [|done]. by eapply detect_changes_never_both.
Qed.

Lemma tick_records hash conf steps status w r :
  tick hash conf steps status w = Some r ->
  hashes_recorded hash steps (tick_status r).
Proof.
  intros (mid & Hmid & Hr)%tick_inv i bs s' Hbs Hs'.
  destruct (recompile_TreeHash _ _ _ _ _ _ _ _ _ _ Hr Hs') as (s & Hs & ->).
  by eapply detect_changes_records.
Qed.

(** The restart signal of a tick: sent exactly when the callback of the
    last step has been called during the tick. *)
Lemma tick_restart_iff_last_called hash conf steps status w r :
  tick hash conf steps status w = Some r ->
  tick_restart r = true <-> called (length steps - 1) (tick_events r).
Proof.
  intros (mid & Hmid & Hr)%tick_inv.
  rewrite (recompile_restart _ _ _ _ _ _ _ _ Hr). split; [|by right].
  by intros [?|?].
Qed.
End StatusFacts.

(** ** The first compile pass *)

Section InitialPass.
Context {W : Type}.
Implicit Types (steps : list (BuildStep W)) (status : list sourceTreeStatus) (w : W).

Lemma mark_broken_from_lookup i n status j :
  mark_broken_from i n status !! j
  = if decide (i <= j < n) then set_Broken true <$> status !! j else status !! j.
Proof.
  unfold mark_broken_from. rewrite alter_range_lookup.
  repeat case_decide; try lia; done.
Qed.

(** In watch mode the pass never dies; a failing step is the last one
    called, and the statuses from it on are marked. *)
Lemma initial_pass_watch conf n steps : forall i status w,
  exists status' w' evs,
    initial_pass true conf n i steps status w = PassDone status' w' evs /\
    (forall j x, CallCompile j x ∈ evs -> i <= j < i + length steps) /\
    (forall k e, CallCompile k (Some e) ∈ evs ->
       status' = mark_broken_from k n status /\
       forall j x, CallCompile j x ∈ evs -> j <= k).
Proof.
  induction steps as [|bs rest IH]; intros i status w; simpl.
  - exists status, w, []. split; [done|].
    split; intros ? ? Hin; by apply elem_of_nil in Hin.
  - destruct (Compile bs conf w) as [[e|] w1].
    + eexists _, _, _. split; [done|]. split.
      * intros j x Hin. in_events Hin. simplify_eq. lia.
      * intros k e' Hin. in_events Hin. simplify_eq. split; [done|].
        intros j x Hin. in_events Hin. simplify_eq. lia.
    + destruct (IH (S i) status w1) as (status' & w' & evs & -> & Hrange & Hfail).
      simpl. eexists _, _, _. split; [done|]. split.
      * intros j x Hin. in_events Hin; [simplify_eq; lia|].
        apply Hrange in Hin. lia.
      * intros k e Hin. in_events Hin.
        destruct (Hfail _ _ Hin) as [-> Hlast]. split; [done|].
        intros j x Hj. in_events Hj; [|by eapply Hlast].
        simplify_eq. apply Hrange in Hin. lia.
Qed.
(** Neither the first pass nor the recording of the hashes touches a
    Dirty flag. *)
Lemma initial_pass_Dirty watch conf n steps : forall i status w status' w' evs,
  initial_pass watch conf n i steps status w = PassDone status' w' evs ->
  length status' = length status /\
  forall j, Dirty <$> status' !! j = Dirty <$> status !! j.
Proof.
  induction steps as [|bs rest IH]; intros i status w status' w' evs H; simpl in H.
  - by inversion H.
  - destruct (Compile bs conf w) as [[e|] w1].
    + destruct watch; [|done]. inversion H; subst. split.
      * apply alter_range_length.
      * intros j. rewrite mark_broken_from_lookup.
        case_decide; [|done]. by destruct (status !! j).
    + destruct (initial_pass watch conf n (S i) rest status w1) eqn:Hrest; [done|].
      simpl in H. inversion H; subst. by eapply IH.
Qed.

Lemma init_hashes_Dirty hash steps : forall i status,
  length (init_hashes hash i steps status) = length status /\
  forall j, Dirty <$> init_hashes hash i steps status !! j = Dirty <$> status !! j.
Proof.
  induction steps as [|st rest IH]; intros i status; simpl; [done|].
  destruct (IH (S i) (alter (set_TreeHash (hash (StepWatchList st))) i status))
    as [Hlen Hd].
  split; [by rewrite Hlen, length_alter|].
  intros j. rewrite Hd. destruct (decide (j = i)) as [->|Hne].
  - rewrite list_lookup_alter_eq. by destruct (status !! i).
  - by rewrite list_lookup_alter_ne.
Qed.

(** The statuses with which [Run] enters the watch loop: one per step,
    none Dirty, so none both Dirty and Broken.  Every tick keeps the
    length ([tick_length]) and the invariant ([tick_never_both]). *)
Lemma watch_entry_status conf steps w status w' evs hash :
  initial_pass true conf (length steps) 0 steps (make_status (length steps)) w
  = PassDone status w' evs ->
  length (init_hashes hash 0 steps status) = length steps /\
  never_both (init_hashes hash 0 steps status).
Proof.
  intros H. apply initial_pass_Dirty in H as [Hlen Hd].
  destruct (init_hashes_Dirty hash steps 0 status) as [Hlen' Hd'].
  split.
  - unfold make_status in Hlen. rewrite length_replicate in Hlen. congruence.
  - intros j s Hs Hdirty.
    pose proof (Hd' j) as Hj. rewrite Hs, Hd in Hj. simpl in Hj.
    unfold make_status in Hj.
    destruct (replicate (length steps) zero_status !! j) as [z|] eqn:Hz; [|done].
    apply lookup_replicate_1 in Hz as [-> _]. simpl in Hj. congruence.
Qed.
End InitialPass.

(** ** The claims about [Build.Run] *)

Section RunClaims.
Context {W : Type}.
Implicit Types (steps : list (BuildStep W)) (status : list sourceTreeStatus) (w : W).
Implicit Types (hash : WatchList -> string).

(** C3. Cascade without [-quick], three steps.  In the hash phase of a
    tick, when only the tree hash of step 0 differs from the recorded
    one, steps 0, 1 and 2 all become Dirty; when only that of step 2
    differs, step 2 becomes Dirty and the statuses of steps 0 and 1
    stay as they were. *)
Theorem cascade_without_quick hash (s0 s1 s2 : BuildStep W)
    (t0 t1 t2 : sourceTreeStatus) :
  (TreeHash t0 <> hash (StepWatchList s0) ->
   TreeHash t1 = hash (StepWatchList s1) ->
   TreeHash t2 = hash (StepWatchList s2) ->
   detect_changes hash false 0 [s0; s1; s2] [t0; t1; t2]
   = Some [ {| TreeHash := hash (StepWatchList s0); Dirty := true; Broken := false |};
            {| TreeHash := TreeHash t1; Dirty := true; Broken := false |};
            {| TreeHash := TreeHash t2; Dirty := true; Broken := false |} ])
  /\
  (TreeHash t0 = hash (StepWatchList s0) ->
   TreeHash t1 = hash (StepWatchList s1) ->
   TreeHash t2 <> hash (StepWatchList s2) ->
   detect_changes hash false 0 [s0; s1; s2] [t0; t1; t2]
   = Some [ t0; t1;
            {| TreeHash := hash (StepWatchList s2); Dirty := true; Broken := false |} ]).
Proof.
  split; intros H0 H1 H2.
  - erewrite detect_changes_changed; [|reflexivity|done].
    assert (mark_changed false 0 (hash (StepWatchList s0)) [t0; t1; t2]
            = [ {| TreeHash := hash (StepWatchList s0); Dirty := true; Broken := false |};
                {| TreeHash := TreeHash t1; Dirty := true; Broken := false |};
                {| TreeHash := TreeHash t2; Dirty := true; Broken := false |} ]) as ->.
    { by destruct t1 as [? ? [|]], t2 as [? ? [|]]. }
    erewrite detect_changes_same; [|reflexivity|done].
    by erewrite detect_changes_same; [|reflexivity|done].
  - erewrite detect_changes_same; [|reflexivity|done].
    erewrite detect_changes_same; [|reflexivity|done].
    by erewrite detect_changes_changed; [|reflexivity|done].
Qed.

(** C4. Cascade with [-quick], three steps.  In the hash phase of a
    tick, when only the tree hash of step 0 differs from the recorded
    one, step 0 becomes Dirty; a later step whose Broken flag is set
    becomes Dirty with the flag cleared, and a later step whose Broken
    flag is clear keeps its status. *)
Theorem cascade_with_quick hash (s0 s1 s2 : BuildStep W)
    (t0 t1 t2 : sourceTreeStatus) :
  TreeHash t0 <> hash (StepWatchList s0) ->
  TreeHash t1 = hash (StepWatchList s1) ->
  TreeHash t2 = hash (StepWatchList s2) ->
  exists u1 u2,
    detect_changes hash true 0 [s0; s1; s2] [t0; t1; t2]
    = Some [ {| TreeHash := hash (StepWatchList s0); Dirty := true; Broken := false |};
             u1; u2 ] /\
    u1 = (if Broken t1
          then {| TreeHash := TreeHash t1; Dirty := true; Broken := false |}
          else t1) /\
    u2 = (if Broken t2
          then {| TreeHash := TreeHash t2; Dirty := true; Broken := false |}
          else t2).
Proof.
  intros H0 H1 H2.
  erewrite detect_changes_changed; [|reflexivity|done].
  assert (mark_changed true 0 (hash (StepWatchList s0)) [t0; t1; t2]
          = [ {| TreeHash := hash (StepWatchList s0); Dirty := true; Broken := false |};
              cascade_one true t1; cascade_one true t2 ]) as -> by reflexivity.
  erewrite detect_changes_same; [|reflexivity|by rewrite cascade_one_TreeHash].
  erewrite detect_changes_same; [|reflexivity|by rewrite cascade_one_TreeHash].
  eexists _, _. split; [reflexivity|].
  by destruct t1 as [? ? [|]], t2 as [? ? [|]].
Qed.

(** C5. In watch mode, when the callback of step [k] fails during the
    first compile pass, the pass ends there: step [k] and every later
    step are marked Broken, no callback of a later step has been
    called, and [Run] goes on with the watch loop.  *)
Theorem initial_failure_keeps_watching sha1_Sum path_Join filepath_Match
    (flags : Flags) (b : Build W) (fs0 : FileSystem) (later : list FileSystem)
    (exitErr : option error) w k e :
  watch flags = true ->
  CallCompile k (Some e)
    ∈ pass_events (initial_pass (watch flags) (conf flags) (length (Steps b)) 0
                     (Steps b) (make_status (length (Steps b))) w) ->
  exists status w' evs,
    initial_pass (watch flags) (conf flags) (length (Steps b)) 0 (Steps b)
      (make_status (length (Steps b))) w = PassDone status w' evs /\
    (forall j, k <= j < length (Steps b) ->
       status !! j = Some {| TreeHash := ""; Dirty := false; Broken := true |}) /\
    (forall j, j < k -> status !! j = Some zero_status) /\
    (forall j x, CallCompile j x ∈ evs -> j <= k) /\
    Run sha1_Sum path_Join filepath_Match flags b fs0 later exitErr w
    = await_exit (run flags) exitErr
        (run_log_more evs
           (watch_loop (run flags) (conf flags) (Steps b)
              (map (treeHasher sha1_Sum path_Join filepath_Match) later)
              (init_hashes (treeHasher sha1_Sum path_Join filepath_Match fs0) 0
                 (Steps b) status)
              w')).
Proof.
  intros Hw Hin. unfold Run. rewrite Hw in *.
  destruct (initial_pass_watch (conf flags) (length (Steps b)) (Steps b) 0
              (make_status (length (Steps b))) w)
    as (status & w' & evs & Heq & Hrange & Hfail).
  rewrite Heq in *. simpl in Hin.
  destruct (Hfail _ _ Hin) as [-> Hlast].
  pose proof (Hrange _ _ Hin) as Hk.
  eexists _, _, _. split; [done|]. repeat split; [| |done].
  - intros j Hj. rewrite mark_broken_from_lookup.
    case_decide; [|lia]. unfold make_status. by rewrite lookup_replicate_2 by lia.
  - intros j Hj. rewrite mark_broken_from_lookup.
    case_decide; [lia|]. unfold make_status. rewrite lookup_replicate_2; [done|lia].
Qed.

(** C6, amended.  When the callback of step [i] fails during the
    recompilation phase of a tick, no callback of a later step is called
    during that tick, and every later step keeps the status it had in
    that phase, so a Dirty one stays Dirty.  On the next tick, with the
    same hashes, such a step is compiled unless the callback of a step
    before it fails during that tick. *)
Theorem failed_compile_ends_tick hash conf steps status w r i e :
  length status = length steps ->
  tick hash conf steps status w = Some r ->
  CallCompile i (Some e) ∈ tick_events r ->
  exists mid,
    detect_changes hash (Quick conf) 0 steps status = Some mid /\
    (forall j x, i < j -> CallCompile j x ∉ tick_events r) /\
    (forall j s, i < j -> mid !! j = Some s -> tick_status r !! j = Some s) /\
    exists r2,
      tick hash conf steps (tick_status r) (tick_world r) = Some r2 /\
      forall j s, i < j -> mid !! j = Some s -> Dirty s = true ->
        called j (tick_events r2)
        \/ exists k, k < j /\ failed k (tick_events r2).
Proof.
  intros Hlen Ht Hfail.
  pose proof (tick_length _ _ _ _ _ _ Ht) as Hlen'.
  pose proof (tick_records _ _ _ _ _ _ Ht) as Hrec.
  destruct (tick_inv _ _ _ _ _ _ Ht) as (mid & Hmid & Hr).
  exists mid. split; [done|].
  assert (forall j x, i < j -> CallCompile j x ∉ tick_events r) as Hnone.
  { intros j x Hj Hin. pose proof (recompile_failed_last _ _ _ _ _ _ _ _ _ _ _ _ Hr Hfail Hin).
    lia. }
  assert (forall j s, i < j -> mid !! j = Some s -> tick_status r !! j = Some s) as Hkeep.
  { intros j s Hj Hs.
    destruct (recompile_at _ _ _ _ _ _ _ _ _ _ Hr Hs)
      as [[Hst _] | [(_ & Hc & _) | (_ & [e' Hc] & _)]]; [done | |];
      by apply Hnone in Hc. }
  split; [done|]. split; [done|].
  destruct (tick_Some hash conf steps (tick_status r) (tick_world r)) as [r2 Hr2];
    [congruence|].
  exists r2. split; [done|]. intros j s Hj Hs Hd.
  destruct (tick_inv _ _ _ _ _ _ Hr2) as (mid2 & Hmid2 & Hrr2).
  rewrite detect_changes_unchanged in Hmid2 by (done || congruence).
  inversion Hmid2; subst mid2.
  destruct (recompile_progress _ _ _ _ _ _ _ _ j s Hrr2) as [?|(k & ? & ?)];
    [by apply Hkeep | done | | by left | right; exists k; split; [lia|done]].
  apply Hkeep, lookup_lt_Some in Hs; [|done]. lia.
Qed.

(** After a tick in which step [i] is not Dirty, ticks that see the
    hashes of the steps up to [i] unchanged never compile step [i]. *)
Lemma watch_loop_skips_clean_step hash conf steps i run : forall ticks status w,
  length status = length steps ->
  Forall (same_hashes_up_to i steps hash) ticks ->
  (forall k bs s, k <= i -> steps !! k = Some bs -> status !! k = Some s ->
     TreeHash s = hash (StepWatchList bs)) ->
  (forall s, status !! i = Some s -> Dirty s = false) ->
  ~ called i (events (watch_loop run conf steps ticks status w)).
Proof.
  induction ticks as [|h ticks IH]; intros status w Hlen Hsame Hrec Hclean [x Hx];
    simpl in Hx; [by apply elem_of_nil in Hx|].
  apply Forall_cons in Hsame as [Hh Hsame].
  destruct (tick h conf steps status w) as [r|] eqn:Ht;
    [|by apply elem_of_nil in Hx].
  destruct (tick_inv _ _ _ _ _ _ Ht) as (mid & Hmid & Hr).
  assert (forall j, j <= i -> mid !! j = status !! j) as Hpre.
  { eapply detect_changes_prefix; [|done]. simpl.
    intros k bs s Hk Hbs Hs. rewrite (Hh k bs Hk Hbs). by eapply Hrec. }
  assert (~ called i (tick_events r) /\
          forall s, tick_status r !! i = Some s -> Dirty s = false) as [Hnc Hclean'].
  { destruct (status !! i) as [s|] eqn:Hs.
    - pose proof (Hclean s eq_refl) as Hd.
      rewrite <- Hpre in Hs by done.
      destruct (recompile_at _ _ _ _ _ _ _ _ _ _ Hr Hs)
        as [[Hst Hnc] | [(? & _) | (? & _)]]; [|congruence..].
      split; [done|]. intros s' Hs'. congruence.
    - apply lookup_ge_None in Hs. split.
      + intros [y Hy]. eapply recompile_called_range in Hy; [|done]. lia.
      + intros s' Hs'. apply lookup_lt_Some in Hs'.
        rewrite (tick_length _ _ _ _ _ _ Ht) in Hs'. lia. }
  assert (called i (events (watch_loop run conf steps ticks (tick_status r) (tick_world r)))
          -> False) as Hrest.
  { apply IH; [| done | | done].
    - rewrite (tick_length _ _ _ _ _ _ Ht). done.
    - intros k bs s' Hk Hbs Hs'.
      destruct (recompile_TreeHash _ _ _ _ _ _ _ _ _ _ Hr Hs') as (s & Hs & ->).
      rewrite Hpre in Hs by done. by eapply Hrec. }
  destruct (tick_restart r); [destruct run|]; simpl in Hx.
  - rewrite !elem_of_app in Hx. destruct Hx as [[Hx|Hx]|Hx].
    + apply Hnc. by exists x.
    + by in_events Hx.
    + apply Hrest. by exists x.
  - apply Hnc. by exists x.
  - rewrite elem_of_app in Hx. destruct Hx as [Hx|Hx].
    + apply Hnc. by exists x.
    + apply Hrest. by exists x.
Qed.

(** C7. When the callback of step [i] fails during a tick, the step is
    left with both flags clear: Dirty was cleared for the call and is
    not set again, and Broken is not set.  From then on, no tick
    compiles step [i] as long as the hashes of its own tree and of the
    trees of the steps before it stay the same. *)
Theorem failed_step_not_retried hash conf steps status w r i e :
  length status = length steps ->
  never_both status ->
  tick hash conf steps status w = Some r ->
  CallCompile i (Some e) ∈ tick_events r ->
  (exists s', tick_status r !! i = Some s' /\ Dirty s' = false /\ Broken s' = false) /\
  forall run ticks,
    Forall (same_hashes_up_to i steps hash) ticks ->
    ~ called i (events (watch_loop run conf steps ticks (tick_status r) (tick_world r))).
Proof.
  intros Hlen Hnb Ht Hfail.
  pose proof (tick_length _ _ _ _ _ _ Ht) as Hlen'.
  pose proof (tick_records _ _ _ _ _ _ Ht) as Hrec.
  destruct (tick_inv _ _ _ _ _ _ Ht) as (mid & Hmid & Hr).
  pose proof (detect_changes_never_both _ _ _ _ _ _ Hnb Hmid) as Hnb'.
  pose proof (detect_changes_length _ _ _ _ _ _ Hmid) as Hlenm.
  pose proof (recompile_called_range _ _ _ _ _ _ _ _ _ _ Hr Hfail) as Hi.
  destruct (lookup_lt_is_Some_2 mid i) as [s Hs]; [simpl in Hi; lia|].
  assert (tick_status r !! i = Some (set_Dirty false s) /\ Dirty s = true) as [Hst Hd].
  { destruct (recompile_at _ _ _ _ _ _ _ _ _ _ Hr Hs)
      as [[_ Hnc] | [(_ & Hc & _) | (? & _ & ?)]]; [| |done].
    - destruct Hnc. by exists (Some e).
    - by pose proof (recompile_call_once _ _ _ _ _ _ _ _ _ _ _ Hr Hc Hfail). }
  split.
  - exists (set_Dirty false s). split; [done|]. split; [done|]. simpl. by eapply Hnb'.
  - intros run ticks Hsame. apply (watch_loop_skips_clean_step hash); [congruence | done | |].
    + intros k bs s' _ Hbs Hs'. by eapply Hrec.
    + intros s' Hs'. rewrite Hst in Hs'. by simplify_eq.
Qed.

(** C8. Tick idempotence.  After a tick in which no compile failed, no
    step is Dirty, and a second tick that sees the same hashes changes
    no status, calls no compile callback and signals no restart. *)
Theorem tick_twice_is_idle hash conf steps status w r :
  length status = length steps ->
  tick hash conf steps status w = Some r ->
  (forall i e, CallCompile i (Some e) ∉ tick_events r) ->
  (forall i s, tick_status r !! i = Some s -> Dirty s = false) /\
  tick hash conf steps (tick_status r) (tick_world r)
  = Some {| tick_status := tick_status r; tick_world := tick_world r;
            tick_events := []; tick_restart := false |}.
Proof.
  intros Hlen Ht Hok.
  pose proof (tick_length _ _ _ _ _ _ Ht) as Hlen'.
  pose proof (tick_records _ _ _ _ _ _ Ht) as Hrec.
  destruct (tick_inv _ _ _ _ _ _ Ht) as (mid & Hmid & Hr).
  pose proof (detect_changes_length _ _ _ _ _ _ Hmid) as Hlenm.
  assert (forall i s, tick_status r !! i = Some s -> Dirty s = false) as Hclean.
  { intros i s' Hs'.
    destruct (lookup_lt_is_Some_2 mid i) as [s Hs].
    { apply lookup_lt_Some in Hs'. lia. }
    destruct (recompile_at _ _ _ _ _ _ _ _ _ _ Hr Hs)
      as [[Hst Hnc] | [(_ & _ & Hst) | (_ & [e He] & _)]].
    - rewrite Hst in Hs'. simplify_eq.
      destruct (Dirty s') eqn:Hd; [|done].
      destruct (recompile_progress _ _ _ _ _ _ _ _ i s' Hr Hs Hd) as [?|(k & _ & [e He])];
        [apply lookup_lt_Some in Hs; simpl; lia | done | by apply Hok in He].
    - rewrite Hst in Hs'. by simplify_eq.
    - by apply Hok in He. }
  split; [done|]. unfold tick.
  rewrite detect_changes_unchanged by (done || congruence).
  apply recompile_clean; [simpl; lia | done].
Qed.
End RunClaims.

(** ** The claims on sample builds *)

(** C1. The flag [-run] is documented as running the executable upon
    successful compilation, and the claim has a restart signalled only
    when the last step recompiles successfully.  Here the only step of a
    build is recompiled after a change, its callback fails, and the tick
    still asks for a restart, which [Run] sends. *)
Theorem restart_after_failed_compile :
  (exists r,
     tick (sample_hasher "package main") (sample_conf false) [sample_step "cmd"]
       [clean_at "stale"] [Some "exit status 1"] = Some r /\
     tick_events r = [LogRecompiling 0; CallCompile 0 (Some "exit status 1");
                      LogCompilationError "exit status 1"] /\
     tick_restart r = true) /\
  events (Run raw_Sum slash_Join sample_Match watch_and_run one_step_build
            (sample_fs "package main") [sample_fs "package mian"] None
            [None; Some "exit status 1"])
  = [CallCompile 0 None;
     LogRecompiling 0; CallCompile 0 (Some "exit status 1");
     LogCompilationError "exit status 1"; SignalRestart].
Proof.
  split; [|by vm_compute].
  eexists. split; [by vm_compute|]. by split.
Qed.

(** C2. The claim has Broken set exactly when the last compile of the
    step failed.  Here a step is recompiled after a change: when the
    callback succeeds the tick leaves the step Broken, and when the
    callback fails the tick leaves it not Broken. *)
Theorem Broken_follows_success :
  (exists r,
     tick (sample_hasher "package main") (sample_conf false) [sample_step "cmd"]
       [clean_at "stale"] [None] = Some r /\
     tick_events r = [LogRecompiling 0; CallCompile 0 None] /\
     Broken <$> tick_status r !! 0 = Some true) /\
  (exists r,
     tick (sample_hasher "package main") (sample_conf false) [sample_step "cmd"]
       [clean_at "stale"] [Some "exit status 1"] = Some r /\
     tick_events r = [LogRecompiling 0; CallCompile 0 (Some "exit status 1");
                      LogCompilationError "exit status 1"] /\
     Broken <$> tick_status r !! 0 = Some false).
Proof.
  split; (eexists; split; [by vm_compute|]; by split).
Qed.

Lemma cascade_without_quick_witness :
  detect_changes (sample_hasher "package main") false 0 three_steps
    [clean_at "stale";
     clean_at (sample_hasher "package main" (watching "pkg"));
     clean_at (sample_hasher "package main" (watching "doc"))]
  = Some [ {| TreeHash := sample_hasher "package main" (watching "cmd");
              Dirty := true; Broken := false |};
           {| TreeHash := sample_hasher "package main" (watching "pkg");
              Dirty := true; Broken := false |};
           {| TreeHash := sample_hasher "package main" (watching "doc");
              Dirty := true; Broken := false |} ]
  /\
  detect_changes (sample_hasher "package main") false 0 three_steps
    [clean_at (sample_hasher "package main" (watching "cmd"));
     clean_at (sample_hasher "package main" (watching "pkg"));
     clean_at "stale"]
  = Some [ clean_at (sample_hasher "package main" (watching "cmd"));
           clean_at (sample_hasher "package main" (watching "pkg"));
           {| TreeHash := sample_hasher "package main" (watching "doc");
              Dirty := true; Broken := false |} ].
Proof.
  split.
  - apply (cascade_without_quick (sample_hasher "package main")
             (sample_step "cmd") (sample_step "pkg") (sample_step "doc")
             (clean_at "stale")
             (clean_at (sample_hasher "package main" (watching "pkg")))
             (clean_at (sample_hasher "package main" (watching "doc"))));
      [by vm_compute | reflexivity | reflexivity].
  - apply (cascade_without_quick (sample_hasher "package main")
             (sample_step "cmd") (sample_step "pkg") (sample_step "doc")
             (clean_at (sample_hasher "package main" (watching "cmd")))
             (clean_at (sample_hasher "package main" (watching "pkg")))
             (clean_at "stale"));
      [reflexivity | reflexivity | by vm_compute].
Defined.

Lemma cascade_with_quick_witness :
  exists u1 u2,
    detect_changes (sample_hasher "package main") true 0 three_steps
      [clean_at "stale";
       {| TreeHash := sample_hasher "package main" (watching "pkg");
          Dirty := false; Broken := true |};
       clean_at (sample_hasher "package main" (watching "doc"))]
    = Some [ {| TreeHash := sample_hasher "package main" (watching "cmd");
                Dirty := true; Broken := false |}; u1; u2 ] /\
    u1 = {| TreeHash := sample_hasher "package main" (watching "pkg");
            Dirty := true; Broken := false |} /\
    u2 = clean_at (sample_hasher "package main" (watching "doc")).
Proof.
  apply (cascade_with_quick (sample_hasher "package main")
           (sample_step "cmd") (sample_step "pkg") (sample_step "doc")
           (clean_at "stale")
           {| TreeHash := sample_hasher "package main" (watching "pkg");
              Dirty := false; Broken := true |}
           (clean_at (sample_hasher "package main" (watching "doc"))));
    [by vm_compute | reflexivity | reflexivity].
Defined.

Lemma initial_failure_keeps_watching_witness :
  exists status w' evs,
    initial_pass (watch watch_and_run) (conf watch_and_run)
      (length (Steps two_step_build)) 0 (Steps two_step_build)
      (make_status (length (Steps two_step_build))) [Some "exit status 1"]
    = PassDone status w' evs /\
    (forall j, 0 <= j < length (Steps two_step_build) ->
       status !! j = Some {| TreeHash := ""; Dirty := false; Broken := true |}) /\
    (forall j, j < 0 -> status !! j = Some zero_status) /\
    (forall j x, CallCompile j x ∈ evs -> j <= 0) /\
    Run raw_Sum slash_Join sample_Match watch_and_run two_step_build
      (sample_fs "package main") [sample_fs "package main"] None [Some "exit status 1"]
    = await_exit (run watch_and_run) None
        (run_log_more evs
           (watch_loop (run watch_and_run) (conf watch_and_run) (Steps two_step_build)
              (map (treeHasher raw_Sum slash_Join sample_Match) [sample_fs "package main"])
              (init_hashes (treeHasher raw_Sum slash_Join sample_Match (sample_fs "package main"))
                 0 (Steps two_step_build) status)
              w')).
Proof.
  apply (initial_failure_keeps_watching raw_Sum slash_Join sample_Match watch_and_run
           two_step_build (sample_fs "package main") [sample_fs "package main"] None
           [Some "exit status 1"] 0 "exit status 1").
  - reflexivity.
  - simpl. left.
Defined.

Lemma failed_compile_ends_tick_witness :
  exists r,
    tick (sample_hasher "package main") (sample_conf false) three_steps
      [clean_at "stale"; clean_at "stale"; clean_at "stale"]
      [Some "exit status 1"] = Some r /\
    exists mid,
      detect_changes (sample_hasher "package main") (Quick (sample_conf false)) 0
        three_steps [clean_at "stale"; clean_at "stale"; clean_at "stale"] = Some mid /\
      (forall j x, 0 < j -> CallCompile j x ∉ tick_events r) /\
      (forall j s, 0 < j -> mid !! j = Some s -> tick_status r !! j = Some s) /\
      exists r2,
        tick (sample_hasher "package main") (sample_conf false) three_steps
          (tick_status r) (tick_world r) = Some r2 /\
        forall j s, 0 < j -> mid !! j = Some s -> Dirty s = true ->
          called j (tick_events r2)
          \/ exists k, k < j /\ failed k (tick_events r2).
Proof.
  eexists. split; [by vm_compute|].
  apply (failed_compile_ends_tick (sample_hasher "package main") (sample_conf false)
           three_steps [clean_at "stale"; clean_at "stale"; clean_at "stale"]
           [Some "exit status 1"] _ 0 "exit status 1").
  - reflexivity.
  - by vm_compute.
  - simpl. right. left.
Defined.

(** C6 as the specification words it fails: step 0 fails in one tick,
    step 1 fails in the next, and step 2, Dirty all along, is not compiled
    by that next tick. *)
Lemma later_dirty_not_retried :
  ~ later_dirty_retried (sample_hasher "package main") (sample_conf false) three_steps
      [clean_at "stale"; clean_at "stale"; clean_at "stale"]
      [Some "exit status 1"; Some "exit status 2"].
Proof.
  intros H.
  edestruct H with (i := 0) (e := "exit status 1") (j := 2) as (r2 & Hr2 & [x Hx]).
  - by vm_compute.
  - by vm_compute.
  - simpl. right. left.
  - lia.
  - reflexivity.
  - reflexivity.
  - vm_compute in Hr2. inversion Hr2; subst r2. simpl in Hx. in_events Hx.
Qed.

Lemma failed_step_not_retried_witness :
  exists r,
    tick (sample_hasher "package main") (sample_conf false) three_steps
      [clean_at "stale"; clean_at "stale"; clean_at "stale"]
      [None; Some "exit status 1"] = Some r /\
    (exists s', tick_status r !! 1 = Some s' /\ Dirty s' = false /\ Broken s' = false) /\
    forall run ticks,
      Forall (same_hashes_up_to 1 three_steps (sample_hasher "package main")) ticks ->
      ~ called 1 (events (watch_loop run (sample_conf false) three_steps ticks
                            (tick_status r) (tick_world r))).
Proof.
  eexists. split; [by vm_compute|].
  apply (failed_step_not_retried (sample_hasher "package main") (sample_conf false)
           three_steps [clean_at "stale"; clean_at "stale"; clean_at "stale"]
           [None; Some "exit status 1"] _ 1 "exit status 1").
  - reflexivity.
  - apply never_both_forallb. reflexivity.
  - by vm_compute.
  - simpl. do 3 right. left.
Defined.

Lemma tick_twice_is_idle_witness :
  exists r,
    tick (sample_hasher "package main") (sample_conf false) three_steps
      [clean_at "stale"; clean_at "stale"; clean_at "stale"] [] = Some r /\
    (forall i s, tick_status r !! i = Some s -> Dirty s = false) /\
    tick (sample_hasher "package main") (sample_conf false) three_steps
      (tick_status r) (tick_world r)
    = Some {| tick_status := tick_status r; tick_world := tick_world r;
              tick_events := []; tick_restart := false |}.
Proof.
  eexists. split; [by vm_compute|].
  apply (tick_twice_is_idle (sample_hasher "package main") (sample_conf false)
           three_steps [clean_at "stale"; clean_at "stale"; clean_at "stale"] []).
  - reflexivity.
  - by vm_compute.
  - intros i e Hin. simpl in Hin. in_events Hin.
Defined.

(** ** Facts about the hasher *)

Lemma append_empty_r (s : string) : s +:+ "" = s.
Proof.
  induction s as [|c s IH]; [done|].
  change (String c (s +:+ "") = String c s). by f_equal.
Qed.

Lemma last_byte_append_one (s : string) (c : ascii) :
  last_byte (s +:+ String c "") = Some c.
Proof.
  induction s as [|a s IH]; [done|].
  change (last_byte (String a s +:+ String c ""))
    with (match last_byte (s +:+ String c "") with None => Some a | Some c' => Some c' end).
  by rewrite IH.
Qed.

Lemma strip_trailing_seps_keeps (p : string) (c : ascii) :
  last_byte p = Some c -> is_sep c = false -> strip_trailing_seps p = p.
Proof.
  induction p as [|a p IH]; simpl; [done|].
  destruct (last_byte p) as [c'|] eqn:Hl.
  - intros [= ->] Hc. rewrite IH by done. by destruct p.
  - intros [= ->] Hc. destruct p; [|by simpl in Hl; destruct (last_byte p)].
    simpl. by rewrite Hc.
Qed.

Lemma last_element_last_byte (p : string) (c : ascii) :
  last_byte p = Some c -> is_sep c = false ->
  forall acc, last_byte (last_element acc p) = Some c.
Proof.
  induction p as [|a p IH]; simpl; [done|].
  destruct (last_byte p) as [c'|] eqn:Hl.
  - intros [= ->] Hc acc. destruct (is_sep a); by apply IH.
  - intros [= ->] Hc acc. destruct p; [|by simpl in Hl; destruct (last_byte p)].
    rewrite Hc. simpl. apply last_byte_append_one.
Qed.

(** A path that does not end in a separator ends like its base name. *)
Lemma filepath_Base_last_byte (p : string) (c : ascii) :
  last_byte p = Some c -> is_sep c = false ->
  last_byte (filepath_Base p) = Some c.
Proof.
  intros Hl Hc. unfold filepath_Base. destruct p as [|a p]; [done|].
  rewrite (strip_trailing_seps_keeps _ _ Hl Hc).
  pose proof (last_element_last_byte _ _ Hl Hc "") as H.
  by destruct (last_element "" (String a p)).
Qed.

Lemma match_literal_star_byte (p : ascii) (pattern : string) (c : ascii) (name : string) :
  Ascii.eqb p "*" = false ->
  match_literal_star (String p pattern) (String c name) = Ascii.eqb p c && match_literal_star pattern name.
Proof. intros H1. cbn [match_literal_star]. by rewrite H1. Qed.

Lemma match_literal_star_empty (p : ascii) (pattern : string) :
  Ascii.eqb p "*" = false ->
  match_literal_star (String p pattern) "" = false.
Proof. intros H1. cbn [match_literal_star]. by rewrite H1. Qed.

Lemma match_literal_star_star (pattern : string) (c : ascii) (name : string) :
  match_literal_star (String "*" pattern) (String c name)
  = match_literal_star pattern (String c name)
    || (negb (is_sep c) && match_literal_star (String "*" pattern) name).
Proof. reflexivity. Qed.

Lemma glob_dot_go (name : string) : match_literal_star ".go" name = true -> name = ".go".
Proof.
  destruct name as [|c1 [|c2 [|c3 [|c4 name]]]];
    rewrite ?match_literal_star_byte, ?match_literal_star_empty, ?andb_false_r by done;
    try done.
  intros [H1 [H2 [H3 _]%andb_prop]%andb_prop]%andb_prop.
  apply Ascii.eqb_eq in H1, H2, H3. by subst.
Qed.

(** What [*.go] matches ends in [o]. *)
Lemma glob_star_go_last_byte (name : string) :
  match_literal_star "*.go" name = true -> last_byte name = Some "o"%char.
Proof.
  induction name as [|c name IH]; [done|].
  rewrite match_literal_star_star.
  intros [H|[_ H]%andb_prop]%orb_prop.
  - by rewrite (glob_dot_go _ H).
  - apply IH in H. simpl. by rewrite H.
Qed.

Lemma glob_star_go_rejects_txt (filePath : string) :
  filepath_Base filePath = "main.txt" -> match_literal_star "*.go" filePath = false.
Proof.
  intros Hb. destruct (match_literal_star "*.go" filePath) eqn:Hm; [|done].
  apply glob_star_go_last_byte in Hm.
  apply filepath_Base_last_byte in Hm; [|done].
  rewrite Hb in Hm. by vm_compute in Hm.
Qed.

Section HasherClaims.
Variable sha1_Sum : string -> string.
Variable path_Join : string -> string -> string.
Variable filepath_Match : string -> string -> bool.

(** On the pattern [*.go], [filepath.Match] accepts what [glob_match]
    accepts: the names that end in [.go] after a run of bytes without a
    separator. *)
Hypothesis filepath_Match_star_go :
  forall name, glob_match "*.go" name = Some (filepath_Match "*.go" name).

Lemma filepath_Match_star_go_eq (name : string) :
  filepath_Match "*.go" name = match_literal_star "*.go" name.
Proof.
  pose proof (filepath_Match_star_go name) as H.
  change (glob_match "*.go" name) with (Some (match_literal_star "*.go" name)) in H.
  congruence.
Qed.

Local Abbreviation dirHash := (directoryHash sha1_Sum path_Join filepath_Match).
Local Abbreviation treeHash := (sourceTreeHash sha1_Sum path_Join filepath_Match).

Lemma directoryHash_file level filePath w content :
  dirHash level filePath w (RegularFile content)
  = if negb (match FileFilter w with
             | None => true
             | Some patterns => filter_found filepath_Match patterns filePath
             end)
    then ""
    else match content with
         | None => sha1_Sum filePath
         | Some bytes => sha1_Sum (filePath +:+ bytes)
         end.
Proof. reflexivity. Qed.

Lemma directoryHash_dir level filePath w names :
  dirHash level filePath w (Directory (Some names))
  = if Nat.ltb 0 level && excluded_dir (filepath_Base filePath) then ""
    else sha1_Sum
           (fold_left
              (fun h entry =>
                 if hidden_name (fst entry) then h
                 else h +:+ dirHash (S level) (path_Join filePath (fst entry)) w
                              (snd entry))
              names filePath).
Proof. reflexivity. Qed.

(** The digest is the same on file systems that show the same at the
    watched roots. *)
Lemma sourceTreeHash_same_roots (fs1 fs2 : FileSystem) (w : WatchList) :
  (forall d, d ∈ Paths w -> fs1 d = fs2 d) ->
  treeHash fs1 w = treeHash fs2 w.
Proof.
  intros Hsame. unfold sourceTreeHash. do 2 f_equal.
  generalize EmptyString. revert Hsame.
  induction (Paths w) as [|d paths IH]; intros Hsame h; simpl; [done|].
  rewrite (Hsame d) by (apply elem_of_cons; auto).
  apply IH. intros d' Hd'. apply Hsame, elem_of_cons. by right.
Qed.

(** Under the filter [*.go] a file named [main.go] is kept and a file
    named [main.txt] is not, whatever the directory. *)
Lemma star_go_keeps_main_go (filePath : string) :
  filepath_Base filePath = "main.go" ->
  filter_found filepath_Match ["*.go"] filePath = true.
Proof.
  intros Hb. unfold filter_found. simpl.
  rewrite !filepath_Match_star_go_eq, Hb.
  change (match_literal_star "*.go" "main.go") with true.
  by destruct (match_literal_star "*.go" filePath).
Qed.

Lemma star_go_drops_main_txt (filePath : string) :
  filepath_Base filePath = "main.txt" ->
  filter_found filepath_Match ["*.go"] filePath = false.
Proof.
  intros Hb. unfold filter_found. simpl.
  rewrite !filepath_Match_star_go_eq, Hb.
  by rewrite (glob_star_go_rejects_txt _ Hb).
Qed.
End HasherClaims.

(** ** Further properties of [Build.Run] *)

Section MoreRun.
Context {W : Type}.
Implicit Types (steps : list (BuildStep W)) (status : list sourceTreeStatus) (w : W).
Implicit Types (hash : WatchList -> string).

Lemma cascade_one_idemp quick s :
  cascade_one quick (cascade_one quick s) = cascade_one quick s.
Proof. by destruct s as [? ? [|]], quick. Qed.

(** A detected change at the step after [pre]: the step is marked, and
    every step after it goes through the cascade. *)
Lemma mark_changed_app quick th (pre : list sourceTreeStatus) s cur :
  mark_changed quick (length pre) th (pre ++ s :: cur)
  = pre ++ {| TreeHash := th; Dirty := true; Broken := false |}
        :: (cascade_one quick <$> cur).
Proof.
  apply list_eq. intros j. rewrite mark_changed_lookup.
  destruct (decide (j < length pre)) as [Hlt|Hge].
  - by rewrite !lookup_app_l.
  - rewrite !lookup_app_r by lia.
    destruct (decide (j = length pre)) as [->|Hne].
    + by rewrite Nat.sub_diag.
    + destruct (j - length pre) as [|k] eqn:Hk; [lia|]. simpl.
      by rewrite list_lookup_fmap.
Qed.

Lemma detect_changes_from hash quick :
  forall steps (pre orig : list sourceTreeStatus) (upstream : bool),
  length orig = length steps ->
  detect_changes hash quick (length pre) steps
    (pre ++ (if upstream then cascade_one quick <$> orig else orig))
  = Some (pre ++ single_pass hash quick upstream steps orig).
Proof.
  induction steps as [|bs steps IH]; intros pre orig upstream Hlen.
  - destruct orig; [|done]. by destruct upstream.
  - destruct orig as [|s orig]; [done|]. simpl in Hlen.
    set (s1 := if upstream then cascade_one quick s else s).
    set (cur := if upstream then cascade_one quick <$> orig else orig).
    assert ((if upstream then cascade_one quick <$> s :: orig else s :: orig) = s1 :: cur)
      as -> by (by destruct upstream).
    assert (TreeHash s1 = TreeHash s) as Hth.
    { unfold s1. destruct upstream; [apply cascade_one_TreeHash | done]. }
    assert ((pre ++ s1 :: cur) !! length pre = Some s1) as Hs1.
    { by rewrite lookup_app_r, Nat.sub_diag by lia. }
    cbn [single_pass]. unfold changed.
    destruct (String.eqb (TreeHash s) (hash (StepWatchList bs))) eqn:Heq;
      cbn [negb].
    + erewrite detect_changes_same; [|done|].
      2: { rewrite Hth. by apply String.eqb_eq. }
      pose proof (IH (pre ++ [s1]) orig upstream ltac:(lia)) as IH'.
      rewrite length_app, Nat.add_1_r, <- !app_assoc in IH'.
      fold cur in IH'. cbn [app] in IH'. rewrite IH'. cbn [app].
      apply String.eqb_eq in Heq. rewrite !orb_false_r. do 3 f_equal.
      unfold s1. destruct s as [h [|] [|]], upstream, quick; simpl in *; by subst.
    + erewrite detect_changes_changed; [|done|].
      2: { rewrite Hth. by apply String.eqb_neq. }
      rewrite mark_changed_app.
      assert (cascade_one quick <$> cur = cascade_one quick <$> orig) as ->.
      { unfold cur. destruct upstream; [|done].
        rewrite <- list_fmap_compose. apply list_fmap_ext. intros ? x _. simpl.
        apply cascade_one_idemp. }
      set (new := {| TreeHash := hash (StepWatchList bs); Dirty := true; Broken := false |}).
      pose proof (IH (pre ++ [new]) orig true ltac:(lia)) as IH'.
      rewrite length_app, Nat.add_1_r, <- !app_assoc in IH'.
      cbn [app] in IH'. rewrite IH'. cbn [app].
      by rewrite !orb_true_r, andb_false_r.
Qed.

(** X1. The hash phase of a tick, with its nested loop, computes what
    one pass over the steps computes: every step ends with the current
    hash of its tree recorded; it is Dirty when it was Dirty, or its own
    tree changed, or the tree of an earlier step changed and it was Broken
    or [-quick] is off; it is Broken when it was Broken and no tree up to
    its own changed. *)
Theorem hash_phase_is_single_pass hash quick steps status :
  length status = length steps ->
  detect_changes hash quick 0 steps status
  = Some (single_pass hash quick false steps status).
Proof.
  intros Hlen. exact (detect_changes_from hash quick steps [] status false Hlen).
Qed.

(** X2. During a tick the callback of a step is called exactly when the
    step is Dirty after the hash phase and no callback of an earlier step
    has failed in the tick. *)
Theorem called_iff_dirty_and_reached hash conf steps status w r mid j :
  length status = length steps ->
  tick hash conf steps status w = Some r ->
  detect_changes hash (Quick conf) 0 steps status = Some mid ->
  called j (tick_events r)
  <-> (exists s, mid !! j = Some s /\ Dirty s = true) /\
      forall k, k < j -> ~ failed k (tick_events r).
Proof.
  intros Hlen Ht Hmid.
  destruct (tick_inv _ _ _ _ _ _ Ht) as (mid' & Hmid' & Hr).
  assert (mid' = mid) as -> by congruence.
  pose proof (detect_changes_length _ _ _ _ _ _ Hmid) as Hlenm.
  split.
  - intros [x Hx].
    pose proof (recompile_called_range _ _ _ _ _ _ _ _ _ _ Hr Hx) as Hj.
    destruct (lookup_lt_is_Some_2 mid j) as [s Hs]; [simpl in Hj; lia|].
    split.
    + exists s. split; [done|].
      destruct (recompile_at _ _ _ _ _ _ _ _ _ _ Hr Hs)
        as [[_ Hnc] | [(? & _) | (? & _)]]; [|done..].
      destruct Hnc. by exists x.
    + intros k Hk [e He].
      pose proof (recompile_failed_last _ _ _ _ _ _ _ _ _ _ _ _ Hr He Hx). lia.
  - intros [(s & Hs & Hd) Hnf].
    destruct (recompile_progress _ _ _ _ _ _ _ _ j s Hr Hs Hd) as [?|(k & ? & ?)];
      [|done|].
    + apply lookup_lt_Some in Hs. simpl. lia.
    + destruct (Hnf k); [lia | done].
Qed.

(** X3. After any tick, whether its compiles succeeded or failed, every
    recorded hash is the one the tick has seen, so the hash phase of a
    next tick that sees the same hashes changes nothing: a change is
    reported once. *)
Theorem change_reported_once hash conf quick steps status w r :
  length status = length steps ->
  tick hash conf steps status w = Some r ->
  hashes_recorded hash steps (tick_status r) /\
  detect_changes hash quick 0 steps (tick_status r) = Some (tick_status r).
Proof.
  intros Hlen Ht.
  pose proof (tick_records _ _ _ _ _ _ Ht) as Hrec.
  split; [done|]. apply detect_changes_unchanged; [|done].
  rewrite (tick_length _ _ _ _ _ _ Ht). done.
Qed.

Lemma init_hashes_below hash steps : forall i status j,
  j < i -> init_hashes hash i steps status !! j = status !! j.
Proof.
  induction steps as [|st rest IH]; intros i status j Hj; simpl; [done|].
  rewrite IH by lia. apply list_lookup_alter_ne. lia.
Qed.

Lemma init_hashes_records_from hash steps : forall i status k bs s,
  steps !! k = Some bs ->
  init_hashes hash i steps status !! (i + k) = Some s ->
  TreeHash s = hash (StepWatchList bs).
Proof.
  induction steps as [|st rest IH]; intros i status k bs s Hk Hs; [done|].
  simpl in Hs. destruct k as [|k]; simpl in Hk.
  - inversion Hk; subst bs. rewrite Nat.add_0_r in Hs.
    rewrite init_hashes_below, list_lookup_alter_eq in Hs by lia.
    destruct (status !! i); simpl in Hs; [|done]. by inversion Hs.
  - replace (i + S k) with (S i + k) in Hs by lia. by eapply IH.
Qed.

Lemma init_hashes_records hash steps status :
  hashes_recorded hash steps (init_hashes hash 0 steps status).
Proof. intros i bs s Hbs Hs. by eapply (init_hashes_records_from hash steps 0). Qed.

(** With no step Dirty and every tick seeing the recorded hashes, the
    watch loop runs to the cancellation without doing anything. *)
Lemma watch_loop_idle run conf steps : forall ticks status w,
  length status = length steps ->
  (forall j s, status !! j = Some s -> Dirty s = false) ->
  Forall (fun h => hashes_recorded h steps status) ticks ->
  watch_loop run conf steps ticks status w
  = {| outcome := Returned; final_status := status; final_world := w; events := [] |}.
Proof.
  induction ticks as [|h ticks IH]; intros status w Hlen Hclean Hrec; simpl; [done|].
  apply Forall_cons in Hrec as [Hh Hrec].
  unfold tick. rewrite detect_changes_unchanged by done.
  rewrite recompile_clean by (done || simpl; lia). simpl.
  by rewrite IH.
Qed.

(** The watch loop never indexes out of range and never dies; it keeps
    one status per step, none both Dirty and Broken. *)
Lemma watch_loop_invariant run conf steps : forall ticks status w,
  length status = length steps ->
  never_both status ->
  outcome (watch_loop run conf steps ticks status w) <> Panicked /\
  (forall e, outcome (watch_loop run conf steps ticks status w) <> Fatal e) /\
  length (final_status (watch_loop run conf steps ticks status w)) = length steps /\
  never_both (final_status (watch_loop run conf steps ticks status w)).
Proof.
  induction ticks as [|h ticks IH]; intros status w Hlen Hnb; simpl; [done|].
  destruct (tick_Some h conf steps status w Hlen) as [r Hr]. rewrite Hr.
  pose proof (tick_length _ _ _ _ _ _ Hr) as Hlen'.
  pose proof (tick_never_both _ _ _ _ _ _ Hnb Hr) as Hnb'.
  destruct (IH (tick_status r) (tick_world r)) as (? & ? & ? & ?); [congruence | done |].
  destruct (tick_restart r); [destruct run|]; simpl; repeat split; try done; congruence.
Qed.

(** X4. Whatever the flags, the callbacks and the file systems, [Run]
    never indexes the status slice out of range, and it ends with one
    status per step, none both Dirty and Broken. *)
Theorem Run_keeps_status_well_formed sha1_Sum path_Join filepath_Match
    (flags : Flags) (b : Build W) (fs0 : FileSystem) (later : list FileSystem)
    (exitErr : option error) w :
  outcome (Run sha1_Sum path_Join filepath_Match flags b fs0 later exitErr w) <> Panicked /\
  length (final_status (Run sha1_Sum path_Join filepath_Match flags b fs0 later exitErr w))
  = length (Steps b) /\
  never_both (final_status (Run sha1_Sum path_Join filepath_Match flags b fs0 later exitErr w)).
Proof.
  assert (forall n, never_both (make_status n)) as Hzero.
  { intros n j s Hs. unfold make_status in Hs. apply lookup_replicate_1 in Hs as [-> _]. done. }
  assert (forall run r, outcome r <> Panicked ->
            outcome (await_exit (W:=W) run exitErr r) <> Panicked /\
            final_status (await_exit run exitErr r) = final_status r) as Hawait.
  { intros run r Hr. unfold await_exit.
    destruct (outcome r) eqn:Ho, run, exitErr; simpl; by rewrite ?Ho. }
  unfold Run.
  destruct (initial_pass _ _ _ _ _ _ _) as [e w' evs|status w' evs] eqn:Hpass; simpl.
  - split; [done|]. split; [|done]. unfold make_status. by rewrite length_replicate.
  - pose proof (initial_pass_Dirty _ _ _ _ _ _ _ _ _ _ Hpass) as [Hlen Hd].
    unfold make_status in Hlen. rewrite length_replicate in Hlen.
    assert (never_both status) as Hnb.
    { intros j s Hs Hdirty. pose proof (Hd j) as Hj. rewrite Hs in Hj. simpl in Hj.
      destruct (make_status (length (Steps b)) !! j) as [z|] eqn:Hz; [|done].
      unfold make_status in Hz. apply lookup_replicate_1 in Hz as [-> _].
      simpl in Hj. congruence. }
    destruct (watch flags).
    + set (h0 := treeHasher sha1_Sum path_Join filepath_Match fs0).
      destruct (init_hashes_Dirty h0 (Steps b) 0 status) as [Hlen0 Hd0].
      assert (never_both (init_hashes h0 0 (Steps b) status)) as Hnb0.
      { intros j s Hs Hdirty. pose proof (Hd0 j) as Hj. rewrite Hs in Hj. simpl in Hj.
        destruct (status !! j) as [z|] eqn:Hz; [|done]. simpl in Hj.
        pose proof (Hd j) as Hj'. rewrite Hz in Hj'. simpl in Hj'.
        destruct (make_status (length (Steps b)) !! j) as [z0|] eqn:Hz0; [|done].
        unfold make_status in Hz0. apply lookup_replicate_1 in Hz0 as [-> _].
        simpl in Hj'. congruence. }
      destruct (watch_loop_invariant (run flags) (conf flags) (Steps b)
                  (map (treeHasher sha1_Sum path_Join filepath_Match) later)
                  (init_hashes h0 0 (Steps b) status) w')
        as (Hp & _ & Hl & Hn); [congruence | done |].
      destruct (Hawait (run flags)
                  (run_log_more evs
                     (watch_loop (run flags) (conf flags) (Steps b)
                        (map (treeHasher sha1_Sum path_Join filepath_Match) later)
                        (init_hashes h0 0 (Steps b) status) w'))) as [Ho Hf]; [done|].
      rewrite Hf. done.
    + destruct (Hawait (run flags)
                  (run_log_more evs
                     {| outcome := Returned; final_status := status; final_world := w';
                        events := [] |})) as [Ho Hf]; [done|].
      rewrite Hf. done.
Qed.

(** X5. In watch mode a compile error never ends [Run]: the only fatal
    end is the error of the launched executable that [-run] waits for
    once the loop is over. *)
Theorem watching_survives_compile_errors sha1_Sum path_Join filepath_Match
    (flags : Flags) (b : Build W) (fs0 : FileSystem) (later : list FileSystem)
    (exitErr : option error) w e :
  watch flags = true ->
  outcome (Run sha1_Sum path_Join filepath_Match flags b fs0 later exitErr w) = Fatal e ->
  run flags = true /\ exitErr = Some e.
Proof.
  intros Hw Hout. unfold Run in Hout. rewrite Hw in Hout.
  destruct (initial_pass_watch (conf flags) (length (Steps b)) (Steps b) 0
              (make_status (length (Steps b))) w)
    as (status & w' & evs & Hp & _).
  rewrite Hp in Hout.
  destruct (watch_entry_status _ _ _ _ _ _
              (treeHasher sha1_Sum path_Join filepath_Match fs0) Hp) as [Hl Hn].
  destruct (watch_loop_invariant (run flags) (conf flags) (Steps b)
              (map (treeHasher sha1_Sum path_Join filepath_Match) later) _ w' Hl Hn)
    as (_ & Hnf & _).
  unfold await_exit in Hout. simpl in Hout.
  destruct (outcome (watch_loop _ _ _ _ _ _)) eqn:Ho; [by destruct (Hnf e0)| | |];
    destruct (run flags), exitErr; simpl in Hout; rewrite ?Ho in Hout;
    try done; by inversion Hout.
Qed.

(** The first pass calls the steps in order: either all succeed, or the
    calls stop at the first failure, which is fatal unless watching. *)
Lemma initial_pass_shape watch conf n steps : forall i status w,
  (exists w',
     initial_pass watch conf n i steps status w
     = PassDone status w' (ok_calls i (length steps)))
  \/ (exists m e w',
        m < length steps /\
        initial_pass watch conf n i steps status w
        = if watch
          then PassDone (mark_broken_from (i + m) n status) w'
                 (ok_calls i m ++ [CallCompile (i + m) (Some e); LogCompilationError e])
          else PassFatal e w'
                 (ok_calls i m ++ [CallCompile (i + m) (Some e); LogCompilationError e])).
Proof.
  induction steps as [|bs rest IH]; intros i status w; simpl.
  - left. by exists w.
  - destruct (Compile bs conf w) as [[e|] w1].
    + right. exists 0, e, w1. split; [lia|]. rewrite Nat.add_0_r. by destruct watch.
    + destruct (IH (S i) status w1) as [(w' & ->) | (m & e & w' & Hm & ->)].
      * left. by exists w'.
      * right. exists (S m), e, w'. split; [lia|].
        replace (i + S m) with (S i + m) by lia. by destruct watch.
Qed.

(** X6. Without [-watch], [Run] calls the callbacks in step order.  At
    the first error it dies with that error and no later callback is
    called; when all succeed it returns, after waiting for the executable
    under [-run].  No status is changed on the way. *)
Theorem Run_without_watch sha1_Sum path_Join filepath_Match
    (flags : Flags) (b : Build W) (fs0 : FileSystem) (later : list FileSystem)
    (exitErr : option error) w :
  watch flags = false ->
  (exists w',
     Run sha1_Sum path_Join filepath_Match flags b fs0 later exitErr w
     = await_exit (run flags) exitErr
         {| outcome := Returned; final_status := make_status (length (Steps b));
            final_world := w'; events := ok_calls 0 (length (Steps b)) |})
  \/ (exists m e w',
        m < length (Steps b) /\
        Run sha1_Sum path_Join filepath_Match flags b fs0 later exitErr w
        = {| outcome := Fatal e; final_status := make_status (length (Steps b));
             final_world := w';
             events := ok_calls 0 m ++ [CallCompile m (Some e); LogCompilationError e] |}).
Proof.
  intros Hw. unfold Run. rewrite Hw.
  destruct (initial_pass_shape false (conf flags) (length (Steps b)) (Steps b) 0
              (make_status (length (Steps b))) w)
    as [(w' & ->) | (m & e & w' & Hm & ->)].
  - left. exists w'. unfold run_log_more. simpl. by rewrite app_nil_r.
  - right. by exists m, e, w'.
Qed.

(** X7. In watch mode without [-run] nothing receives on the restart
    channel: the watch loop ends blocked on it exactly when it has called
    the callback of the last step. *)
Theorem watch_without_run_blocks conf steps :
  forall (ticks : list (WatchList -> string)) status w,
  length status = length steps ->
  outcome (watch_loop false conf steps ticks status w) = BlockedOnRestart
  <-> called (length steps - 1) (events (watch_loop false conf steps ticks status w)).
Proof.
  induction ticks as [|h ticks IH]; intros status w Hlen; simpl.
  - split; [done|]. intros [x Hx]. by apply elem_of_nil in Hx.
  - destruct (tick_Some h conf steps status w Hlen) as [r Hr]. rewrite Hr.
    pose proof (tick_restart_iff_last_called _ _ _ _ _ _ Hr) as Hiff.
    destruct (tick_restart r) eqn:Hrestart; simpl.
    + split; [|done]. intros _. by apply Hiff.
    + rewrite IH by (by rewrite (tick_length _ _ _ _ _ _ Hr)).
      split.
      * intros [x Hx]. exists x. apply elem_of_app. by right.
      * intros [x Hx]. apply elem_of_app in Hx as [Hx|Hx]; [|by exists x].
        assert (false = true); [|done]. apply Hiff. by exists x.
Qed.

(** X8. In watch mode, as long as every tick sees the trees hash as they
    did when the hashes were first recorded, the watch loop calls no
    callback, also when the first pass has failed and left steps Broken:
    the events of [Run] are those of the first pass. *)
Theorem nothing_compiled_until_a_change sha1_Sum path_Join filepath_Match
    (flags : Flags) (b : Build W) (fs0 : FileSystem) (later : list FileSystem)
    (exitErr : option error) w :
  watch flags = true ->
  (forall fs bs, fs ∈ later -> bs ∈ Steps b ->
     treeHasher sha1_Sum path_Join filepath_Match fs (StepWatchList bs)
     = treeHasher sha1_Sum path_Join filepath_Match fs0 (StepWatchList bs)) ->
  exists status w' evs,
    initial_pass true (conf flags) (length (Steps b)) 0 (Steps b)
      (make_status (length (Steps b))) w = PassDone status w' evs /\
    Run sha1_Sum path_Join filepath_Match flags b fs0 later exitErr w
    = await_exit (run flags) exitErr
        {| outcome := Returned;
           final_status := init_hashes (treeHasher sha1_Sum path_Join filepath_Match fs0)
                             0 (Steps b) status;
           final_world := w'; events := evs |}.
Proof.
  intros Hw Hsame. unfold Run. rewrite Hw.
  destruct (initial_pass_watch (conf flags) (length (Steps b)) (Steps b) 0
              (make_status (length (Steps b))) w)
    as (status & w' & evs & Hp & _).
  rewrite Hp. exists status, w', evs. split; [done|].
  set (h0 := treeHasher sha1_Sum path_Join filepath_Match fs0).
  destruct (watch_entry_status _ _ _ _ _ _ h0 Hp) as [Hl _].
  pose proof (initial_pass_Dirty _ _ _ _ _ _ _ _ _ _ Hp) as [_ Hd].
  destruct (init_hashes_Dirty h0 (Steps b) 0 status) as [_ Hd0].
  rewrite watch_loop_idle; [| done | |].
  - unfold run_log_more. simpl. by rewrite app_nil_r.
  - intros j s Hs. pose proof (Hd0 j) as Hj. rewrite Hs, Hd in Hj. simpl in Hj.
    destruct (make_status (length (Steps b)) !! j) as [z|] eqn:Hz; [|done].
    unfold make_status in Hz. apply lookup_replicate_1 in Hz as [-> _].
    simpl in Hj. congruence.
  - apply Forall_forall. intros h Hh.
    apply list_elem_of_In, in_map_iff in Hh as (fs & <- & Hfs).
    intros i bs s Hbs Hs.
    rewrite (init_hashes_records h0 (Steps b) status i bs s Hbs Hs).
    symmetry. apply Hsame.
    + by apply list_elem_of_In.
    + by eapply list_elem_of_lookup_2.
Qed.

(** X9. A tick signals a restart exactly when the last step is Dirty
    after the hash phase and no callback of an earlier step fails during
    the tick; what the callback of the last step returns plays no part. *)
Theorem restart_iff_last_step_reached hash conf steps status w r mid :
  length status = length steps ->
  tick hash conf steps status w = Some r ->
  detect_changes hash (Quick conf) 0 steps status = Some mid ->
  tick_restart r = true
  <-> (exists s, mid !! (length steps - 1) = Some s /\ Dirty s = true) /\
      forall k, k < length steps - 1 -> ~ failed k (tick_events r).
Proof.
  intros Hlen Ht Hmid.
  rewrite (tick_restart_iff_last_called _ _ _ _ _ _ Ht).
  generalize (length steps - 1) as j. intros j.
  destruct (tick_inv _ _ _ _ _ _ Ht) as (mid' & Hmid' & Hr).
  assert (mid' = mid) as -> by congruence.
  pose proof (detect_changes_length _ _ _ _ _ _ Hmid) as Hlenm.
  split.
  - intros [x Hx].
    pose proof (recompile_called_range _ _ _ _ _ _ _ _ _ _ Hr Hx) as Hj.
    destruct (lookup_lt_is_Some_2 mid j) as [s Hs]; [simpl in Hj; lia|].
    split.
    + exists s. split; [done|].
      destruct (recompile_at _ _ _ _ _ _ _ _ _ _ Hr Hs)
        as [[_ Hnc] | [(? & _) | (? & _)]]; [|done..].
      destruct Hnc. by exists x.
    + intros k Hk [e He].
      pose proof (recompile_failed_last _ _ _ _ _ _ _ _ _ _ _ _ Hr He Hx). lia.
  - intros [(s & Hs & Hd) Hnf].
    destruct (recompile_progress _ _ _ _ _ _ _ _ j s Hr Hs Hd) as [?|(k & ? & ?)];
      [|done|].
    + apply lookup_lt_Some in Hs. simpl. lia.
    + destruct (Hnf k); [lia | done].
Qed.

Lemma trim_left_v_no_v (s rest : string) : trim_left_v s <> String "v" rest.
Proof.
  induction s as [|c s IH]; simpl; [done|].
  destruct (Ascii.eqb c "v") eqn:Hc; [done|].
  intros [= -> _]. by rewrite Ascii.eqb_refl in Hc.
Qed.

(** X10. [withVersion] runs the callback once, on the world that
    [git describe] leaves, with the caller's configuration except for
    [Version]: what the caller has put there is dropped, the callback gets
    [unknown-version] when git fails, and never a version that starts
    with [v]. *)
Theorem withVersion_sets_Version (strings_TrimSpace : string -> string)
    (git_describe : W -> option string * W) (compile : CompilerJob W)
    (conf : CompileConfig) w :
  (forall x, withVersion strings_TrimSpace git_describe compile (set_Version x conf) w
             = withVersion strings_TrimSpace git_describe compile conf w) /\
  exists v,
    withVersion strings_TrimSpace git_describe compile conf w
    = compile (set_Version v conf) (snd (git_describe w)) /\
    (fst (git_describe w) = None -> v = "unknown-version") /\
    forall rest, v <> String "v" rest.
Proof.
  split; [done|]. unfold withVersion.
  destruct (git_describe w) as [[out|] w1]; simpl.
  - destruct (Nat.ltb 0 (String.length out)).
    + eexists. split; [reflexivity|]. split; [done|]. apply trim_left_v_no_v.
    + by exists "unknown-version".
  - by exists "unknown-version".
Qed.
Lemma recompile_calls_ordered conf n steps : forall i status w sr r l1 a x l2 c y,
  recompile conf n i steps status w sr = Some r ->
  tick_events r = l1 ++ CallCompile a x :: l2 ->
  CallCompile c y ∈ l2 ->
  a < c.
Proof.
  induction steps as [|bs rest IH]; intros i status w sr r l1 a x l2 c y H Hev Hc.
  - inversion H; subst; simpl in Hev. by destruct l1.
  - apply recompile_cons_inv in H
      as (s & Hs & [[_ H] | [(_ & e & w' & _ & ->) | (_ & w' & r' & _ & H & ->)]]);
      simpl in Hev.
    + by eapply IH.
    + destruct l1 as [|? [|? [|? l1]]]; simplify_eq/=.
      * in_events Hc.
      * by destruct l1.
    + destruct l1 as [|? [|? l1]]; simplify_eq/=.
      * eapply recompile_called_range in Hc; [|done]. lia.
      * by eapply IH.
Qed.

(** X15. Within a tick the callbacks are called in step order, each step
    at most once: a call that comes after the call of step [a] is the call
    of a later step. *)
Theorem tick_calls_in_step_order hash conf steps status w r l1 a x l2 c y :
  tick hash conf steps status w = Some r ->
  tick_events r = l1 ++ CallCompile a x :: l2 ->
  CallCompile c y ∈ l2 ->
  a < c.
Proof.
  intros (mid & _ & Hr)%tick_inv. by eapply recompile_calls_ordered.
Qed.
End MoreRun.

(** ** Further properties of the hasher *)

Lemma append_assoc (a b c : string) : (a +:+ b) +:+ c = a +:+ (b +:+ c).
Proof.
  induction a as [|x a IH]; [done|].
  change (String x ((a +:+ b) +:+ c) = String x (a +:+ (b +:+ c))). by f_equal.
Qed.

(** Induction on what is seen at a path, with the property at hand for
    every entry of a directory. *)
Lemma FileNode_nested_ind (P : FileNode -> Prop) :
  P StatError ->
  (forall content, P (RegularFile content)) ->
  P (Directory None) ->
  (forall names, Forall (fun entry => P (snd entry)) names -> P (Directory (Some names))) ->
  forall node, P node.
Proof.
  intros HS HF HN HD. fix IH 1. intros [|content|[names|]]; [done | done | | done].
  apply HD. induction names as [|[name child] names IHnames]; constructor.
  - apply IH.
  - apply IHnames.
Qed.

Section MoreHasher.
Variable sha1_Sum : string -> string.
Variable path_Join : string -> string -> string.
Variable filepath_Match : string -> string -> bool.

Local Abbreviation dirHash := (directoryHash sha1_Sum path_Join filepath_Match).
Local Abbreviation treeHash := (sourceTreeHash sha1_Sum path_Join filepath_Match).
Local Abbreviation seen := (visible path_Join filepath_Match).

(** An entry that is hidden or yields the empty slice can be left out of
    the listing. *)
Lemma fold_entries_skip level dir w (names : list (string * FileNode)) :
  forall h,
    Forall (fun entry => hidden_name (fst entry) = true
                         \/ dirHash (S level) (path_Join dir (fst entry)) w (snd entry) = "")
           names ->
    fold_left
      (fun h entry =>
         if hidden_name (fst entry) then h
         else h +:+ dirHash (S level) (path_Join dir (fst entry)) w (snd entry))
      names h = h.
Proof.
  induction names as [|entry names IH]; intros h Hall; [done|].
  apply Forall_cons in Hall as [Hentry Hall]. cbn [fold_left].
  assert ((if hidden_name (fst entry) then h
           else h +:+ dirHash (S level) (path_Join dir (fst entry)) w (snd entry)) = h)
    as ->; [|by apply IH].
  destruct Hentry as [->| ->]; [done|].
  rewrite append_empty_r. by destruct (hidden_name _).
Qed.

(** [directoryHash] gives a node what it gives its visible part. *)
Lemma directoryHash_visible w : forall node level filePath,
  dirHash level filePath w node
  = match seen level filePath w node with
    | Some node' => dirHash level filePath w node'
    | None => ""
    end.
Proof.
  induction node as [|content| |names IH] using FileNode_nested_ind;
    intros level filePath.
  - done.
  - cbn [visible]. rewrite directoryHash_file.
    destruct (match FileFilter w with
              | Some patterns => filter_found filepath_Match patterns filePath
              | None => true
              end) eqn:Hfound; [|done].
    by rewrite directoryHash_file, Hfound.
  - cbn [visible directoryHash].
    by destruct (Nat.ltb 0 level && excluded_dir (filepath_Base filePath)) eqn:Hex;
      [| cbn [directoryHash]; rewrite Hex].
  - cbn [visible]. rewrite directoryHash_dir.
    destruct (Nat.ltb 0 level && excluded_dir (filepath_Base filePath)) eqn:Hex; [done|].
    rewrite directoryHash_dir, Hex. f_equal.
    set (step := fun (h : string) (entry : string * FileNode) =>
                   if hidden_name (fst entry) then h
                   else h +:+ dirHash (S level) (path_Join filePath (fst entry)) w
                                (snd entry)).
    set (keep := fun entry : string * FileNode =>
                   if hidden_name (fst entry) then None
                   else pair (fst entry)
                          <$> seen (S level) (path_Join filePath (fst entry)) w (snd entry)).
    enough (forall h, fold_left step names h = fold_left step (omap keep names) h) as H
      by apply H.
    subst step keep.
    induction IH as [|[name child] names Hchild _ IHnames]; intros h; [done|].
    cbn [fold_left omap list_omap fst snd].
    destruct (hidden_name name) eqn:Hhid; [apply IHnames|].
    cbn [snd] in Hchild. rewrite (Hchild (S level) (path_Join filePath name)).
    destruct (seen (S level) (path_Join filePath name) w child) as [child'|]; cbn [fmap option_fmap option_map].
    + cbn [fold_left fst snd]. rewrite Hhid. apply IHnames.
    + rewrite append_empty_r. apply IHnames.
Qed.

(** X11. The digest depends on the file system only through the visible
    part of the watched roots: two file systems that differ only under
    hidden names, under directories named [.git], [node_modules], [build]
    or [doc] below a root, or in files that the filter rejects get the
    same digest. *)
Theorem digest_sees_only_visible (fs1 fs2 : FileSystem) (w : WatchList) :
  (forall d, d ∈ Paths w -> seen 0 d w (fs1 d) = seen 0 d w (fs2 d)) ->
  treeHash fs1 w = treeHash fs2 w.
Proof.
  intros Hsame. unfold sourceTreeHash. do 2 f_equal.
  generalize EmptyString. revert Hsame.
  induction (Paths w) as [|d paths IH]; intros Hsame h; simpl; [done|].
  rewrite (directoryHash_visible w (fs1 d)), (directoryHash_visible w (fs2 d)).
  rewrite (Hsame d) by (apply elem_of_cons; auto).
  apply IH. intros d' Hd'. apply Hsame, elem_of_cons. by right.
Qed.

(** X12. A directory that the hasher does not skip and in which it sees
    nothing (every entry hidden, excluded or rejected by the filter), a
    directory that cannot be listed and a path that cannot be stat'ed all
    hash alike: to the digest of the path alone. *)
Theorem unseen_directory_hashes_as_missing (level : nat) (filePath : string)
    (w : WatchList) (names : list (string * FileNode)) :
  Nat.ltb 0 level && excluded_dir (filepath_Base filePath) = false ->
  Forall (fun entry => hidden_name (fst entry) = true
                       \/ seen (S level) (path_Join filePath (fst entry)) w (snd entry) = None)
         names ->
  dirHash level filePath w (Directory (Some names)) = dirHash level filePath w StatError /\
  dirHash level filePath w (Directory None) = dirHash level filePath w StatError.
Proof.
  intros Hex Hall. split; [|by cbn [directoryHash]; rewrite Hex].
  rewrite directoryHash_dir, Hex. cbn [directoryHash]. f_equal.
  apply fold_entries_skip. eapply Forall_impl; [exact Hall|].
  intros entry [?|Hnone]; [by left|]. right.
  by rewrite directoryHash_visible, Hnone.
Qed.

(** X13. Path and content of a file are written to the hash one after
    the other with nothing in between: with no filter, two listings that
    differ in one file hash alike when the joined path followed by the
    content is the same byte string in both. *)
Theorem path_and_content_run_together (level : nat) (dir : string) (w : WatchList)
    (before after : list (string * FileNode)) (name1 name2 content1 content2 : string) :
  FileFilter w = None ->
  hidden_name name1 = hidden_name name2 ->
  path_Join dir name1 +:+ content1 = path_Join dir name2 +:+ content2 ->
  dirHash level dir w
    (Directory (Some (before ++ (name1, RegularFile (Some content1)) :: after)))
  = dirHash level dir w
      (Directory (Some (before ++ (name2, RegularFile (Some content2)) :: after))).
Proof.
  intros Hf Hhid Heq. rewrite !directoryHash_dir.
  destruct (_ && _); [done|]. f_equal.
  rewrite !fold_left_app. cbn [fold_left fst snd].
  rewrite !directoryHash_file, Hf, Hhid, Heq. done.
Qed.

(** X14. The loop over the filter keeps a file exactly when some pattern
    matches its path or its base name; an empty filter that is not nil
    keeps no file. *)
Theorem filter_found_iff_some_pattern (patterns : list string) (filePath : string) :
  filter_found filepath_Match patterns filePath
  = existsb (fun pattern => filepath_Match pattern filePath
                            || filepath_Match pattern (filepath_Base filePath))
            patterns.
Proof.
  unfold filter_found.
  assert (forall found,
            foldl (fun found pattern =>
                     if filepath_Match pattern filePath then true
                     else if filepath_Match pattern (filepath_Base filePath) then true
                     else found) found patterns
            = found || existsb (fun pattern => filepath_Match pattern filePath
                                  || filepath_Match pattern (filepath_Base filePath))
                         patterns) as H.
  { induction patterns as [|pattern patterns IH]; intros found; simpl.
    - by rewrite orb_false_r.
    - rewrite IH.
      destruct (filepath_Match pattern filePath),
               (filepath_Match pattern (filepath_Base filePath)), found; done. }
  by rewrite H.
Qed.
End MoreHasher.

(** ** The further properties on sample builds *)

Lemma hash_phase_is_single_pass_witness :
  detect_changes (sample_hasher "package main") false 0 three_steps
    [clean_at "stale"; clean_at "stale"; clean_at "stale"]
  = Some (single_pass (sample_hasher "package main") false false three_steps
            [clean_at "stale"; clean_at "stale"; clean_at "stale"]).
Proof.
  apply (hash_phase_is_single_pass (sample_hasher "package main") false three_steps
           [clean_at "stale"; clean_at "stale"; clean_at "stale"]).
  reflexivity.
Defined.

Lemma called_iff_dirty_and_reached_witness :
  exists r mid,
    tick (sample_hasher "package main") (sample_conf false) three_steps
      [clean_at "stale"; clean_at "stale"; clean_at "stale"]
      [None; Some "exit status 1"] = Some r /\
    detect_changes (sample_hasher "package main") (Quick (sample_conf false)) 0 three_steps
      [clean_at "stale"; clean_at "stale"; clean_at "stale"] = Some mid /\
    (called 2 (tick_events r)
     <-> (exists s, mid !! 2 = Some s /\ Dirty s = true) /\
         forall k, k < 2 -> ~ failed k (tick_events r)).
Proof.
  eexists _, _. split; [by vm_compute|]. split; [by vm_compute|].
  apply (called_iff_dirty_and_reached (sample_hasher "package main") (sample_conf false)
           three_steps [clean_at "stale"; clean_at "stale"; clean_at "stale"]
           [None; Some "exit status 1"]).
  - reflexivity.
  - by vm_compute.
  - by vm_compute.
Defined.

Lemma change_reported_once_witness :
  exists r,
    tick (sample_hasher "package main") (sample_conf false) three_steps
      [clean_at "stale"; clean_at "stale"; clean_at "stale"]
      [Some "exit status 1"] = Some r /\
    hashes_recorded (sample_hasher "package main") three_steps (tick_status r) /\
    detect_changes (sample_hasher "package main") true 0 three_steps (tick_status r)
    = Some (tick_status r).
Proof.
  eexists. split; [by vm_compute|].
  apply (change_reported_once (sample_hasher "package main") (sample_conf false) true
           three_steps [clean_at "stale"; clean_at "stale"; clean_at "stale"]
           [Some "exit status 1"]).
  - reflexivity.
  - by vm_compute.
Defined.

Lemma watching_survives_compile_errors_witness :
  run watch_and_run = true /\ Some "exit status 2" = Some "exit status 2".
Proof.
  apply (watching_survives_compile_errors raw_Sum slash_Join sample_Match watch_and_run
           two_step_build (sample_fs "package main") [sample_fs "package mian"]
           (Some "exit status 2") [Some "exit status 1"] "exit status 2").
  - reflexivity.
  - by vm_compute.
Defined.

Lemma Run_without_watch_witness :
  (exists w',
     Run raw_Sum slash_Join sample_Match build_once two_step_build
       (sample_fs "package main") [] None [None; Some "exit status 1"]
     = await_exit (run build_once) None
         {| outcome := Returned; final_status := make_status (length (Steps two_step_build));
            final_world := w'; events := ok_calls 0 (length (Steps two_step_build)) |})
  \/ (exists m e w',
        m < length (Steps two_step_build) /\
        Run raw_Sum slash_Join sample_Match build_once two_step_build
          (sample_fs "package main") [] None [None; Some "exit status 1"]
        = {| outcome := Fatal e; final_status := make_status (length (Steps two_step_build));
             final_world := w';
             events := ok_calls 0 m ++ [CallCompile m (Some e); LogCompilationError e] |}).
Proof.
  apply (Run_without_watch raw_Sum slash_Join sample_Match build_once two_step_build
           (sample_fs "package main") [] None [None; Some "exit status 1"]).
  reflexivity.
Defined.

Lemma watch_without_run_blocks_witness :
  outcome (watch_loop false (sample_conf false)
             (Steps (Main_build "fooServer" scripted (watching "cmd")))
             [sample_hasher "package main"; sample_hasher "package mian"]
             [clean_at "stale"] []) = BlockedOnRestart
  <-> called (length (Steps (Main_build "fooServer" scripted (watching "cmd"))) - 1)
        (events (watch_loop false (sample_conf false)
                   (Steps (Main_build "fooServer" scripted (watching "cmd")))
                   [sample_hasher "package main"; sample_hasher "package mian"]
                   [clean_at "stale"] [])).
Proof.
  apply (watch_without_run_blocks (sample_conf false)
           (Steps (Main_build "fooServer" scripted (watching "cmd")))
           [sample_hasher "package main"; sample_hasher "package mian"]
           [clean_at "stale"] []).
  reflexivity.
Defined.

Lemma nothing_compiled_until_a_change_witness :
  exists status w' evs,
    initial_pass true (conf watch_and_run) (length (Steps two_step_build)) 0
      (Steps two_step_build) (make_status (length (Steps two_step_build)))
      [Some "exit status 1"] = PassDone status w' evs /\
    Run raw_Sum slash_Join sample_Match watch_and_run two_step_build
      (sample_fs "package main")
      [sample_fs "package main"; sample_fs_elsewhere "package main"] None
      [Some "exit status 1"]
    = await_exit (run watch_and_run) None
        {| outcome := Returned;
           final_status := init_hashes
                             (treeHasher raw_Sum slash_Join sample_Match (sample_fs "package main"))
                             0 (Steps two_step_build) status;
           final_world := w'; events := evs |}.
Proof.
  apply (nothing_compiled_until_a_change raw_Sum slash_Join sample_Match watch_and_run
           two_step_build (sample_fs "package main")
           [sample_fs "package main"; sample_fs_elsewhere "package main"] None
           [Some "exit status 1"]).
  - reflexivity.
  - intros fs bs Hfs Hbs. simpl in Hfs, Hbs.
    in_events Hfs; in_events Hbs; by subst.
Defined.

Lemma restart_iff_last_step_reached_witness :
  exists r mid,
    tick (sample_hasher "package main") (sample_conf false) three_steps
      [clean_at "stale"; clean_at "stale"; clean_at "stale"]
      [None; None; Some "exit status 1"] = Some r /\
    detect_changes (sample_hasher "package main") (Quick (sample_conf false)) 0 three_steps
      [clean_at "stale"; clean_at "stale"; clean_at "stale"] = Some mid /\
    (tick_restart r = true
     <-> (exists s, mid !! (length three_steps - 1) = Some s /\ Dirty s = true) /\
         forall k, k < length three_steps - 1 -> ~ failed k (tick_events r)).
Proof.
  eexists _, _. split; [by vm_compute|]. split; [by vm_compute|].
  apply (restart_iff_last_step_reached (sample_hasher "package main") (sample_conf false)
           three_steps [clean_at "stale"; clean_at "stale"; clean_at "stale"]
           [None; None; Some "exit status 1"]).
  - reflexivity.
  - by vm_compute.
  - by vm_compute.
Defined.

Lemma digest_sees_only_visible_witness :
  sourceTreeHash raw_Sum slash_Join sample_Match (sample_fs "package main") cmd_and_pkg
  = sourceTreeHash raw_Sum slash_Join sample_Match (sample_fs_noise "package main")
      cmd_and_pkg.
Proof.
  apply (digest_sees_only_visible raw_Sum slash_Join sample_Match
           (sample_fs "package main") (sample_fs_noise "package main") cmd_and_pkg).
  intros d Hd. simpl in Hd. in_events Hd; by subst.
Defined.

Lemma unseen_directory_hashes_as_missing_witness :
  directoryHash raw_Sum slash_Join sample_Match 0 "cmd" (watching "cmd")
    (Directory (Some [(".git", Directory None);
                      ("main.txt", RegularFile (Some "notes"));
                      ("build", Directory (Some [("main.go", RegularFile (Some "package x"))]))]))
  = directoryHash raw_Sum slash_Join sample_Match 0 "cmd" (watching "cmd") StatError
  /\
  directoryHash raw_Sum slash_Join sample_Match 0 "cmd" (watching "cmd") (Directory None)
  = directoryHash raw_Sum slash_Join sample_Match 0 "cmd" (watching "cmd") StatError.
Proof.
  apply (unseen_directory_hashes_as_missing raw_Sum slash_Join sample_Match 0 "cmd"
           (watching "cmd")).
  - reflexivity.
  - repeat constructor; by (left + right).
Defined.

Lemma path_and_content_run_together_witness :
  directoryHash raw_Sum slash_Join sample_Match 0 "cmd" (unfiltered "cmd")
    (Directory (Some ([] ++ [("a", RegularFile (Some "bc"))])))
  = directoryHash raw_Sum slash_Join sample_Match 0 "cmd" (unfiltered "cmd")
      (Directory (Some ([] ++ [("ab", RegularFile (Some "c"))]))).
Proof.
  apply (path_and_content_run_together raw_Sum slash_Join sample_Match 0 "cmd"
           (unfiltered "cmd") [] [] "a" "ab" "bc" "c"); reflexivity.
Defined.

Lemma tick_calls_in_step_order_witness : 0 < 2.
Proof.
  apply (tick_calls_in_step_order (sample_hasher "package main") (sample_conf false)
           three_steps [clean_at "stale"; clean_at "stale"; clean_at "stale"] []
           {| tick_status :=
                [ {| TreeHash := sample_hasher "package main" (watching "cmd");
                     Dirty := false; Broken := true |};
                  {| TreeHash := sample_hasher "package main" (watching "pkg");
                     Dirty := false; Broken := true |};
                  {| TreeHash := sample_hasher "package main" (watching "doc");
                     Dirty := false; Broken := true |} ];
              tick_world := [];
              tick_events := [LogRecompiling 0; CallCompile 0 None; LogRecompiling 1;
                              CallCompile 1 None; LogRecompiling 2; CallCompile 2 None];
              tick_restart := true |}
           [LogRecompiling 0] 0 None
           [LogRecompiling 1; CallCompile 1 None; LogRecompiling 2; CallCompile 2 None]
           2 None).
  - by vm_compute.
  - reflexivity.
  - do 3 right. left.
Defined.

(** ** The claims about the hasher *)

(** The model of SHA-1 on the test vectors of FIPS 180. *)
Lemma SHA1_test_vectors :
  hex_EncodeToString (SHA1 "") = "da39a3ee5e6b4b0d3255bfef95601890afd80709" /\
  hex_EncodeToString (SHA1 "abc") = "a9993e364706816aba3e25717850c26c9cd0d89d" /\
  hex_EncodeToString (SHA1 "abcdbcdecdefdefgefghfghighijhijkijkljklmklmnlmnomnopnopq")
  = "84983e441c3bd26ebaae4aa1f95129e5e54670f1".
Proof. by vm_compute. Qed.

Lemma forall2b_Forall2 {A B} (f : A -> B -> bool) (l1 : list A) (l2 : list B) :
  forall2b f l1 l2 = true -> Forall2 (fun a b => f a b = true) l1 l2.
Proof.
  revert l2. induction l1 as [|a l1 IH]; intros [|b l2] H; simpl in H;
    try done; try (by constructor).
  apply andb_prop in H as [Hab Hrest]. constructor; [done | by apply IH].
Qed.

Lemma distinct_NoDup (names : list string) : distinct names = true -> NoDup names.
Proof.
  induction names as [|name names IH]; simpl; [constructor|].
  intros [Hnot Hrest]%andb_prop. constructor; [|by apply IH].
  intros Hin. apply negb_true_iff in Hnot.
  assert (existsb (String.eqb name) names = true); [|congruence].
  apply existsb_exists. exists name. split; [by apply list_elem_of_In|].
  apply String.eqb_refl.
Qed.

(** Same content in the same order is the same tree. *)
Lemma same_content_same_order_eq : forall n1 n2,
  same_content n1 n2 = true -> same_order n1 n2 = true -> n1 = n2.
Proof.
  induction n1 as [|c1| |l1 IH] using FileNode_nested_ind;
    intros [|c2|[l2|]]; simpl; try done.
  - intros Hc _. destruct c1 as [b1|], c2 as [b2|]; simpl in Hc; try done.
    by apply String.eqb_eq in Hc as ->.
  - intros [[Hlen Hdist]%andb_prop Hall]%andb_prop Hord%forall2b_Forall2.
    apply Nat.eqb_eq in Hlen. apply distinct_NoDup in Hdist.
    rewrite forallb_forall in Hall.
    assert (fst <$> l2 = fst <$> l1) as Hnames.
    { clear -Hord. induction Hord as [|e1 e2 l1 l2 [H%String.eqb_eq _]%andb_prop _ IHl];
        [done|]. rewrite !fmap_cons. by rewrite H, IHl. }
    do 2 f_equal. apply list_eq_Forall2, Forall2_same_length_lookup.
    split; [done|]. intros i e1 e2 H1 H2.
    assert (fst e1 = fst e2 /\ same_order (snd e1) (snd e2) = true) as [Hfst Hso].
    { pose proof (Forall2_lookup_lr _ _ _ _ _ _ Hord H1 H2) as [H%String.eqb_eq ?]%andb_prop.
      done. }
    destruct (proj1 (existsb_exists _ _)
                (Hall e1 (proj1 (list_elem_of_In _ _) (list_elem_of_lookup_2 _ _ _ H1))))
      as (e2' & Hin & [Hfst'%String.eqb_eq Hsc]%andb_prop).
    apply list_elem_of_In, list_elem_of_lookup_1 in Hin as [j Hj].
    assert (i = j) as <-.
    { eapply (NoDup_lookup (fst <$> l2)); [by rewrite Hnames | |].
      - by rewrite list_lookup_fmap, H2.
      - rewrite list_lookup_fmap, Hj. simpl. congruence. }
    assert (e2' = e2) as -> by congruence.
    rewrite Forall_lookup in IH.
    pose proof (IH i e1 H1 (snd e2) Hsc Hso) as Hsnd.
    destruct e1, e2; simpl in *; congruence.
Qed.

Section TheHasherClaims.
Variable sha1_Sum : string -> string.
Variable path_Join : string -> string -> string.
Variable filepath_Match : string -> string -> bool.

Hypothesis filepath_Match_star_go :
  forall name, glob_match "*.go" name = Some (filepath_Match "*.go" name).

Local Abbreviation dirHash := (directoryHash sha1_Sum path_Join filepath_Match).
Local Abbreviation treeHash := (sourceTreeHash sha1_Sum path_Join filepath_Match).


(** A fold that appends to its accumulator appends to whatever it starts
    from. *)
Lemma fold_entries_acc level dir w (names : list (string * FileNode)) :
  forall h,
    fold_left
      (fun h entry =>
         if hidden_name (fst entry) then h
         else h +:+ dirHash (S level) (path_Join dir (fst entry)) w (snd entry))
      names h
    = h +:+ fold_left
              (fun h entry =>
                 if hidden_name (fst entry) then h
                 else h +:+ dirHash (S level) (path_Join dir (fst entry)) w (snd entry))
              names "".
Proof.
  induction names as [|entry names IH]; intros h; cbn [fold_left].
  - by rewrite append_empty_r.
  - rewrite IH. rewrite (IH (if hidden_name (fst entry) then "" else _)).
    destruct (hidden_name (fst entry)); [done|].
    by rewrite append_assoc.
Qed.

Lemma fold_roots_acc (G : string -> string) (roots : list string) :
  forall h,
    fold_left (fun h d => h +:+ G d) roots h
    = h +:+ fold_left (fun h d => h +:+ G d) roots "".
Proof.
  induction roots as [|d roots IH]; intros h; cbn [fold_left].
  - by rewrite append_empty_r.
  - rewrite IH. rewrite (IH ("" +:+ G d)). by rewrite append_assoc.
Qed.

Lemma entry_named_split name (names : list (string * FileNode)) child :
  entry_named name names = Some child ->
  exists before after, names = before ++ (name, child) :: after.
Proof.
  induction names as [|[name' child'] names IH]; simpl; [done|].
  destruct (String.eqb name' name) eqn:Heq.
  - intros [= ->]. apply String.eqb_eq in Heq as ->. by exists [], names.
  - intros (before & after & ->)%IH. by exists ((name', child') :: before), after.
Qed.

(** The hash of a listed entry that is neither hidden nor in a skipped
    directory is written to the hash of the directory. *)
Lemma entry_hash_written level dir w names name child :
  Nat.ltb 0 level && excluded_dir (filepath_Base dir) = false ->
  hidden_name name = false ->
  entry_named name names = Some child ->
  exists pre post,
    dirHash level dir w (Directory (Some names))
    = sha1_Sum (pre +:+ dirHash (S level) (path_Join dir name) w child +:+ post).
Proof.
  intros Hex Hhid (before & after & ->)%entry_named_split.
  rewrite directoryHash_dir, Hex, fold_left_app. cbn [fold_left fst snd].
  rewrite Hhid, fold_entries_acc, append_assoc. by eexists _, _.
Qed.

(** Along a route that the hasher walks, the path and bytes of a file the
    filter keeps reach the hash of the tree the route starts from. *)
Lemma route_reaches w : forall route level dir node filePath bytes,
  route_seen path_Join level dir route node = true ->
  node_at path_Join dir route node = Some (filePath, RegularFile (Some bytes)) ->
  FileFilter w = Some ["*.go"] ->
  filepath_Base filePath = "main.go" ->
  reaches sha1_Sum (filePath +:+ bytes) (dirHash level dir w node).
Proof.
  induction route as [|name route IH]; intros level dir node filePath bytes Hseen Hat Hf Hb.
  - simpl in Hat. inversion Hat; subst.
    rewrite directoryHash_file, Hf, (star_go_keeps_main_go _ filepath_Match_star_go _ Hb).
    simpl. pose proof (reaches_here sha1_Sum (filePath +:+ bytes) "" "") as H.
    rewrite (append_empty_r (filePath +:+ bytes)) in H. exact H.
  - simpl in Hat, Hseen. destruct node as [| |[names|]]; try done.
    destruct (entry_named name names) as [child|] eqn:Hchild; [|done].
    apply andb_prop in Hseen as [[Hex Hhid]%andb_prop Hseen].
    apply negb_true_iff in Hex, Hhid.
    destruct (entry_hash_written level dir w names name child Hex Hhid Hchild)
      as (pre & post & ->).
    apply reaches_above. by eapply IH.
Qed.

Lemma replace_entry_fold level dir w name child child' :
  dirHash (S level) (path_Join dir name) w child'
  = dirHash (S level) (path_Join dir name) w child ->
  forall names h,
    entry_named name names = Some child ->
    fold_left
      (fun h entry =>
         if hidden_name (fst entry) then h
         else h +:+ dirHash (S level) (path_Join dir (fst entry)) w (snd entry))
      (replace_entry name child' names) h
    = fold_left
        (fun h entry =>
           if hidden_name (fst entry) then h
           else h +:+ dirHash (S level) (path_Join dir (fst entry)) w (snd entry))
        names h.
Proof.
  intros Hsame. induction names as [|[name' child0] names IH]; intros h; simpl; [done|].
  destruct (String.eqb name' name) eqn:Heq.
  - intros [= ->]. apply String.eqb_eq in Heq as ->. cbn [fold_left fst snd].
    by rewrite Hsame.
  - intros Hnamed. cbn [fold_left fst snd]. by apply IH.
Qed.

(** Whatever is put in the place of a file named [main.txt], the hash of
    the tree around it stays the same. *)
Lemma main_txt_not_hashed w content' : forall route level dir node filePath content,
  node_at path_Join dir route node = Some (filePath, RegularFile content) ->
  FileFilter w = Some ["*.go"] ->
  filepath_Base filePath = "main.txt" ->
  dirHash level dir w (put_at route (RegularFile content') node)
  = dirHash level dir w node.
Proof.
  induction route as [|name route IH]; intros level dir node filePath content Hat Hf Hb.
  - simpl in Hat. inversion Hat; subst. simpl put_at.
    by rewrite !directoryHash_file, Hf,
         (star_go_drops_main_txt _ filepath_Match_star_go _ Hb).
  - simpl in Hat. destruct node as [| |[names|]]; try done.
    simpl put_at. destruct (entry_named name names) as [child|] eqn:Hchild; [|done].
    rewrite !directoryHash_dir. destruct (_ && _); [done|]. f_equal.
    apply (replace_entry_fold level dir w name child); [by eapply IH | done].
Qed.

End TheHasherClaims.




